(** * ratelimit-proxy: a shallow embedding of [index.ts]

    The service keeps a fixed-window counter per key, either in Redis
    (one Lua script doing INCR + EXPIRE + TTL) or, when Redis is not
    available, in an in-process [Map].  An authentication hook runs before
    every route.

    Modelling choices.
    - Counters, limits, durations and [Date.now()] readings are integers
      in the program (Joi validates [points] and [duration] as integers,
      [Date.now()] is an integral number of milliseconds); they are [Z]
      here.  The program computes on binary64 numbers, which agree with
      [Z] as long as the operands and the results are safe integers
      ([safe_integer], magnitude below [2^53]); a statement that derives
      a bound from the arithmetic of the counter says so in its
      hypotheses.  The [X-Timestamp] header is arbitrary text turned into
      a JavaScript number, so the guard works on binary64 values
      ([float]).
    - [memoryStore] is a [gmap string CounterRecord]: no claim depends on
      the insertion order that a JavaScript [Map] remembers.
    - The Redis server, [Number], [Number.prototype.toString], the HMAC
      and the Joi schema are collaborators of the program; they are
      parameters (a type class for the server, section variables for the
      rest).  Small concrete instances are given for running examples.
    - Functions that can throw return [Exn + A]; state is passed
      explicitly.  A ghost [trace] records the calls to [redis.eval] and
      to [console.error].
    - One call of [rateLimit] is one step: nothing else runs between the
      [await] of [redis.eval] and the in-memory code that follows a
      failure.  The in-memory code itself has no [await]. *)

From Stdlib Require Import ZArith String Floats Uint63 Lia.
From stdpp Require Import base tactics option list gmap strings fin_maps.

#[local] Open Scope string_scope.
#[local] Open Scope Z_scope.

(** ** Data model *)

(** The value type of [memoryStore]:
    [{ count: number; expiresAt: number }]. *)
Record CounterRecord := mkRecord { count : Z; expiresAt : Z }.

(** The value [rateLimit] resolves to: [{ current: number; ttl: number }]. *)
Record RateResult := mkResult { current : Z; ttl : Z }.

(** Something thrown: a rejected promise of the Redis client or an error
    reply of the server, or a [TypeError] of the language. *)
Inductive Exn := RedisFailure (msg : string) | TypeError (msg : string).

(** Ghost events. *)
Inductive Event :=
| EvRedisEval (key : string) (limit duration : Z)
| EvConsoleError (msg : string).

#[global] Instance CounterRecord_eq_dec : EqDecision CounterRecord.
Proof. solve_decision. Defined.
#[global] Instance RateResult_eq_dec : EqDecision RateResult.
Proof. solve_decision. Defined.

(** ** The Redis server, as the script sees it *)

(** A command either replies with an integer or raises an error reply;
    in both cases it leaves the server in some state. *)
Class RedisServer (R : Type) := {
  redis_INCR : string → R → R * (Exn + Z);
  redis_EXPIRE : string → Z → R → R * (Exn + Z);
  redis_TTL : string → R → R * (Exn + Z)
}.

(** Scripts run in a state-and-error monad over the server.  An error
    aborts the script; what it already wrote stays written. *)
Definition Lua (R A : Type) : Type := R → R * (Exn + A).

Definition lua_ret {R A} (a : A) : Lua R A := λ s, (s, inr a).

Definition lua_bind {R A B} (m : Lua R A) (k : A → Lua R B) : Lua R B :=
  λ s, match m s with
       | (s', inr a) => k a s'
       | (s', inl e) => (s', inl e)
       end.

Definition lua_error {R A} (msg : string) : Lua R A :=
  λ s, (s, inl (RedisFailure msg)).

#[global] Instance Lua_ret {R} : MRet (Lua R) := λ A, @lua_ret R A.
#[global] Instance Lua_bind {R} : MBind (Lua R) := λ A B k m, lua_bind m k.

Section Script.
Context {R : Type} `{RedisServer R}.

(** [tonumber]: the numeric arguments of the script arrive as decimal
    strings; a missing argument is [nil]. *)
Definition tonumber (a : option Z) : option Z := a.

(** [redis.call(cmd, ...)] with a [nil] argument is an error. *)
Definition redis_call_INCR (key : option string) : Lua R Z :=
  match key with
  | Some k => redis_INCR k
  | None => lua_error "Lua redis lib command arguments must be strings or integers"
  end.

Definition redis_call_EXPIRE (key : option string) (seconds : option Z) : Lua R Z :=
  match key, seconds with
  | Some k, Some d => redis_EXPIRE k d
  | _, _ => lua_error "Lua redis lib command arguments must be strings or integers"
  end.

Definition redis_call_TTL (key : option string) : Lua R Z :=
  match key with
  | Some k => redis_TTL k
  | None => lua_error "Lua redis lib command arguments must be strings or integers"
  end.

(** [RATE_LIMIT_SCRIPT].  Lua tables are indexed from 1. *)
Definition RATE_LIMIT_SCRIPT (KEYS : list string) (ARGV : list Z) : Lua R (Z * Z) :=
  let key := KEYS !! 0%nat in
  let limit := tonumber (ARGV !! 0%nat) in
  let duration := tonumber (ARGV !! 1%nat) in
  current ← redis_call_INCR key;
  (if current =? 1 then redis_call_EXPIRE key duration else mret 0);;
  ttl ← redis_call_TTL key;
  mret (current, ttl).
End Script.

(** ** The client side of [redis.eval] *)

(** What the connection does to one command: deliver it and its reply,
    fail before the command reaches the server, or lose the reply of a
    command that did run.  The client of lines 34-41 keeps a command
    whose reply it has not seen and sends it again after reconnecting, so
    that one call can make the server run the command several times:
    [LinkResent runs answered] is the fate in which the server runs it
    [runs] times in all and the reply of the last run arrives when
    [answered] holds. *)
Inductive Link :=
| LinkOk
| LinkRequestLost
| LinkReplyLost
| LinkResent (runs : nat) (answered : bool).

Definition redis_eval {R A} (link : Link) (script : Lua R A) : Lua R A :=
  λ srv,
    match link with
    | LinkRequestLost => (srv, inl (RedisFailure "Connection is closed."))
    | LinkOk => script srv
    | LinkReplyLost => ((script srv).1, inl (RedisFailure "Connection is closed."))
    | LinkResent 0 _ => (srv, inl (RedisFailure "Connection is closed."))
    | LinkResent (S earlier) answered =>
        let srv' := Nat.iter earlier (λ s, (script s).1) srv in
        if answered then script srv'
        else ((script srv').1,
              inl (RedisFailure "Reached the max retries per request limit"))
    end.

(** ** Process state *)

(** [redis] is [None] for the [null] client; a client carries the state
    of the server it talks to. *)
Record World (R : Type) := mkWorld {
  redis : option R;
  redisConnected : bool;
  memoryStore : gmap string CounterRecord;
  trace : list Event
}.
Arguments mkWorld {R} _ _ _ _.
Arguments redis {R} _.
Arguments redisConnected {R} _.
Arguments memoryStore {R} _.
Arguments trace {R} _.

(** What one call reads from its environment: the clock and the fate of
    its Redis command. *)
Record CallEnv := mkEnv { now : Z; link : Link }.

(** [Math.ceil(x / d)] on integers, for [d > 0].  For [d = 1000] and a
    safe integer [x >= 0] it is the number the program computes: the
    binary64 quotient is within [2^-10] of [x / 1000], which is an
    integer or at least [1/1000] away from one. *)
Definition Math_ceil_div (x d : Z) : Z := - ((- x) / d).

Section Counter.
Context {R : Type} `{RedisServer R}.

(** Lines 18-25: the body of the [setInterval] callback.  The loop
    visits every entry and deletes the expired ones. *)
Definition sweep_entry (now : Z) (acc : gmap string CounterRecord)
    (e : string * CounterRecord) : gmap string CounterRecord :=
  if bool_decide (expiresAt e.2 ≤ now) then delete e.1 acc else acc.

Definition sweep_store (now : Z) (m : gmap string CounterRecord)
    : gmap string CounterRecord :=
  foldl (sweep_entry now) m (map_to_list m).

Definition sweep (now : Z) (w : World R) : World R :=
  mkWorld (redis w) (redisConnected w) (sweep_store now (memoryStore w)) (trace w).

(** Lines 98-112 of [rateLimit]: the Redis attempt inside [try]/[catch].
    [Some r] is the early [return]; [None] falls through to the
    in-memory code. *)
Definition rateLimit_redis (key : string) (limit duration : Z) (env : CallEnv)
    (w : World R) : World R * option RateResult :=
  match redis w with
  | Some srv =>
      if redisConnected w then
        let issued := (trace w ++ [EvRedisEval key limit duration])%list in
        match redis_eval (link env)
                (RATE_LIMIT_SCRIPT (take 1 [key]) [limit; duration]) srv with
        | (srv', inr result) =>
            (mkWorld (Some srv') (redisConnected w) (memoryStore w) issued,
             Some (mkResult result.1 result.2))
        | (srv', inl _) =>
            (mkWorld (Some srv') (redisConnected w) (memoryStore w)
               (issued ++ [EvConsoleError "Redis eval error, falling back to memory:"])%list,
             None)
        end
      else (w, None)
  | None => (w, None)
  end.

(** Lines 114-132 of [rateLimit]: the in-memory fallback.  The sums and
    the product are those of the program while they stay safe
    integers. *)
Definition rateLimit_memory (key : string) (duration : Z) (now : Z)
    (w : World R) : World R * RateResult :=
  let existing := memoryStore w !! key in
  match existing with
  | Some existing =>
      if bool_decide (expiresAt existing > now) then
        let existing' := mkRecord (count existing + 1) (expiresAt existing) in
        (mkWorld (redis w) (redisConnected w)
           (<[key := existing']> (memoryStore w)) (trace w),
         mkResult (count existing')
           (Math_ceil_div (expiresAt existing' - now) 1000))
      else
        (mkWorld (redis w) (redisConnected w)
           (<[key := mkRecord 1 (now + duration * 1000)]> (memoryStore w)) (trace w),
         mkResult 1 duration)
  | None =>
      (mkWorld (redis w) (redisConnected w)
         (<[key := mkRecord 1 (now + duration * 1000)]> (memoryStore w)) (trace w),
       mkResult 1 duration)
  end.

(** [rateLimit], lines 92-133.  The result is [inl] if the promise
    rejects. *)
Definition rateLimit (key : string) (limit duration : Z) (env : CallEnv)
    (w : World R) : World R * (Exn + RateResult) :=
  match rateLimit_redis key limit duration env w with
  | (w', Some r) => (w', inr r)
  | (w', None) =>
      let '(w'', r) := rateLimit_memory key duration (now env) w' in
      (w'', inr r)
  end.
End Counter.

(** ** HTTP layer: requests and responses *)

Inductive Route := RateLimitRoute | HealthRoute.

(** [req.routeOptions.url]. *)
Definition routeUrl (r : Route) : string :=
  match r with
  | RateLimitRoute => "/ratelimit"
  | HealthRoute => "/health"
  end.

(** The object [rateLimitSchema.validate(req.body)] returns.  Of the
    error only [error.details?.[0]?.message] is read.  The schema is not
    [required()]: for a request without a body there is no error and
    [value] is [undefined], here [None]. *)
Record JoiError := mkJoiError { first_detail_message : option string }.

Record RateLimitBody := mkBody {
  key : string;
  points : option Z;
  duration : option Z
}.

Record JoiResult := mkJoi {
  error : option JoiError;
  value : option RateLimitBody
}.

(** A header is [undefined] or a string. *)
Record Request := mkRequest {
  route : Route;
  authorization : option string;
  x_timestamp : option string;
  x_signature : option string;
  joi : JoiResult
}.

Inductive Payload :=
| ErrorBody (error : string)
| Allowed (remaining : Z)
| Denied (retryAfter : Z)
| HealthBody (status : string) (redis_field : string) (memoryStoreSize : nat).

Record Response := mkResponse { status : Z; payload : Payload }.

(** A value returned from a handler is sent with status 200. *)
Definition send_ok (p : Payload) : Response := mkResponse 200 p.

(** ** JavaScript values in the guard *)

(** [!x] for a number: [NaN], [+0] and [-0] are falsy. *)
Definition not_number (x : float) : bool :=
  PrimFloat.is_nan x || PrimFloat.eqb x 0%float.

(** [!x] for [string | undefined]. *)
Definition not_string (x : option string) : bool :=
  match x with
  | None => true
  | Some s => String.eqb s ""
  end.

(** [a !== b] where [a] is [string | undefined] and [b] a string. *)
Definition strict_neq (a : option string) (b : string) : bool :=
  match a with
  | None => true
  | Some s => negb (String.eqb s b)
  end.

(** [a || b] on strings, [a] possibly [undefined]. *)
Definition or_string (a : option string) (b : string) : string :=
  match a with
  | Some s => if String.eqb s "" then b else s
  | None => b
  end.

(** The number [Date.now()] returns, as a binary64 value (exact below
    [2^53]). *)
Definition number_of_Z (z : Z) : float :=
  if z <? 0 then PrimFloat.opp (PrimFloat.of_uint63 (Uint63.of_Z (- z)))
  else PrimFloat.of_uint63 (Uint63.of_Z z).

Definition MAX_CLOCK_SKEW_MS : float := 30000%float.

Inductive GuardResult := Pass | Reply (r : Response).

Section Guard.
(** [process.env.RL_SECRET], and the three library functions the hook
    calls: [Number(h)], [ts.toString()] and
    [crypto.createHmac("sha256", key).update(data).digest("hex")]. *)
Variable SHARED_SECRET : string.
Variable Number : option string → float.
Variable Number_toString : float → string.
Variable hmac_sha256_hex : string → string → string.

Definition hmac (data : string) : string := hmac_sha256_hex SHARED_SECRET data.

Definition bearer : string := "Bearer " +:+ SHARED_SECRET.

(** The [preHandler] hook, lines 138-168.  [date_now] is the reading of
    [Date.now()] on line 160. *)
Definition preHandler (date_now : Z) (req : Request) : GuardResult :=
  if String.eqb (routeUrl (route req)) "/health" then
    let auth := authorization req in
    if not_string auth || strict_neq auth bearer then
      Reply (mkResponse 401 (ErrorBody "Unauthorized"))
    else Pass
  else
    let auth := authorization req in
    let ts := Number (x_timestamp req) in
    let sig := x_signature req in
    if not_string auth || strict_neq auth bearer then
      Reply (mkResponse 401 (ErrorBody "Unauthorized"))
    else if not_number ts || not_string sig then
      Reply (mkResponse 400 (ErrorBody "Missing signature"))
    else if PrimFloat.ltb MAX_CLOCK_SKEW_MS
              (PrimFloat.abs (PrimFloat.sub (number_of_Z date_now) ts)) then
      Reply (mkResponse 401 (ErrorBody "Expired request"))
    else
      let expected := hmac (Number_toString ts) in
      if strict_neq sig expected then
        Reply (mkResponse 401 (ErrorBody "Invalid signature"))
      else Pass.
End Guard.

(** ** Route handlers *)

(** [x = d] in a destructuring pattern: the default replaces [undefined]. *)
Definition default_to (d : Z) (x : option Z) : Z :=
  match x with Some v => v | None => d end.

Section Handlers.
Context {R : Type} `{RedisServer R}.

(** [app.post("/ratelimit", ...)], lines 179-203.  The destructuring of
    line 187 throws when [value] is [undefined]. *)
Definition post_ratelimit (req : Request) (env : CallEnv) (w : World R)
    : World R * (Exn + Response) :=
  match error (joi req) with
  | Some err =>
      (w, inr (mkResponse 400
                 (ErrorBody (or_string (first_detail_message err) "Validation error"))))
  | None =>
      match value (joi req) with
      | None =>
          (w, inl (TypeError
                     "Cannot destructure property 'key' of 'value' as it is undefined."))
      | Some value =>
          let points := default_to 100 (points value) in
          let duration := default_to 60 (duration value) in
          let redisKey := "rl:" +:+ key value in
          match rateLimit redisKey points duration env w with
          | (w', inl e) => (w', inl e)
          | (w', inr r) =>
              if current r >? points then
                (w', inr (mkResponse 429 (Denied (ttl r))))
              else
                (w', inr (send_ok (Allowed (points - current r))))
          end
      end
  end.

(** [app.get("/health", ...)], lines 208-216. *)
Definition get_health (w : World R) : Response :=
  send_ok (HealthBody "ok"
             (if redisConnected w then "connected"
              else "disconnected (using memory fallback)")
             (size (memoryStore w))).
End Handlers.

(** One request: the hook, then the handler of the route.  [guard_now] is
    the clock reading of the hook, [call] what [rateLimit] reads. *)
Record ReqEnv := mkReqEnv { guard_now : Z; call : CallEnv }.

Section Server.
Context {R : Type} `{RedisServer R}.
Variable SHARED_SECRET : string.
Variable Number : option string → float.
Variable Number_toString : float → string.
Variable hmac_sha256_hex : string → string → string.

Definition serve (req : Request) (env : ReqEnv) (w : World R)
    : World R * (Exn + Response) :=
  match preHandler SHARED_SECRET Number Number_toString hmac_sha256_hex
          (guard_now env) req with
  | Reply r => (w, inr r)
  | Pass =>
      match route req with
      | RateLimitRoute => post_ratelimit req (call env) w
      | HealthRoute => (w, inr (get_health w))
      end
  end.

(** Requests handled one after the other. *)
Fixpoint serve_all (reqs : list (Request * ReqEnv)) (w : World R)
    : World R * list (Exn + Response) :=
  match reqs with
  | [] => (w, [])
  | (req, env) :: rest =>
      let '(w1, out) := serve req env w in
      let '(w2, outs) := serve_all rest w1 in
      (w2, out :: outs)
  end.

(** An authorized [POST /ratelimit] with body
    [{key: "test-user", points: 5, duration: 10}]. *)
Definition scenario_call (p : Request * ReqEnv) : Prop :=
  route p.1 = RateLimitRoute ∧
  joi p.1 = mkJoi None (Some (mkBody "test-user" (Some 5) (Some 10))) ∧
  preHandler SHARED_SECRET Number Number_toString hmac_sha256_hex
    (guard_now p.2) p.1 = Pass.

(** *** Connection lifecycle, lines 11-59 *)

(** The process starts with a [null] client, the flag down and an empty
    map. *)
Definition boot : World R := mkWorld None false ∅ [].

(** [connectRedis]: without [REDIS_URL] nothing is created; otherwise
    the client for the server at that URL. *)
Definition connectRedis (REDIS_URL : option string) (server : R) (w : World R)
    : World R :=
  if not_string REDIS_URL then w
  else mkWorld (Some server) (redisConnected w) (memoryStore w) (trace w).

Inductive RedisEvent := OnConnect | OnError (msg : string) | OnClose.

(** The three listeners.  Only an existing client emits events. *)
Definition redis_on (ev : RedisEvent) (w : World R) : World R :=
  match redis w with
  | None => w
  | Some _ =>
      match ev with
      | OnConnect => mkWorld (redis w) true (memoryStore w) (trace w)
      | OnError msg =>
          mkWorld (redis w) false (memoryStore w)
            (trace w ++ [EvConsoleError ("Redis error: " +:+ msg)])%list
      | OnClose => mkWorld (redis w) false (memoryStore w) (trace w)
      end
  end.

(** Everything that can happen to the running process. *)
Inductive Action :=
| ARequest (req : Request) (env : ReqEnv)
| ASweep (now : Z)
| ARedis (ev : RedisEvent).

Definition step (w : World R) (a : Action) : World R :=
  match a with
  | ARequest req env => (serve req env w).1
  | ASweep now => sweep now w
  | ARedis ev => redis_on ev w
  end.

Definition run (acts : list Action) (w : World R) : World R :=
  foldl step w acts.
End Server.

(** ** Concrete collaborators, for running examples *)

(** A Redis server looked at during one instant: every key holds an
    integer and, when it expires, the seconds it has left. *)
Module SimRedis.
Definition t : Type := gmap string (Z * option Z).

Definition INCR (k : string) (s : t) : t * (Exn + Z) :=
  match s !! k with
  | None => (<[k := (1, None)]> s, inr 1)
  | Some (v, e) =>
      if v =? 9223372036854775807
      then (s, inl (RedisFailure "ERR increment or decrement would overflow"))
      else (<[k := (v + 1, e)]> s, inr (v + 1))
  end.

Definition EXPIRE (k : string) (d : Z) (s : t) : t * (Exn + Z) :=
  match s !! k with
  | None => (s, inr 0)
  | Some (v, _) =>
      if d <=? 0 then (delete k s, inr 1) else (<[k := (v, Some d)]> s, inr 1)
  end.

Definition TTL (k : string) (s : t) : t * (Exn + Z) :=
  match s !! k with
  | None => (s, inr (-2))
  | Some (_, None) => (s, inr (-1))
  | Some (_, Some e) => (s, inr e)
  end.

#[global] Instance server : RedisServer t :=
  {| redis_INCR := INCR; redis_EXPIRE := EXPIRE; redis_TTL := TTL |}.
End SimRedis.

(** [Number(h)] on the inputs used below: [undefined], the empty string
    and unsigned decimal literals below [2^53]. *)
Module Sample.
Definition digit_value (c : Ascii.ascii) : option Z :=
  let n := Z.of_N (Ascii.N_of_ascii c) in
  if (48 <=? n) && (n <=? 57) then Some (n - 48) else None.

Fixpoint decimal_value (s : string) (acc : Z) : option Z :=
  match s with
  | EmptyString => Some acc
  | String c s' =>
      match digit_value c with
      | Some d => decimal_value s' (10 * acc + d)
      | None => None
      end
  end.

Definition Number (h : option string) : float :=
  match h with
  | None => PrimFloat.nan
  | Some s =>
      match decimal_value s 0 with
      | Some z => if z <? 9007199254740992 then number_of_Z z else PrimFloat.nan
      | None => PrimFloat.nan
      end
  end.

(** Stand-ins for [toString] and for the keyed digest: any function of
    the key and the data can play the digest in the theorems below. *)
Definition Number_toString (x : float) : string :=
  if PrimFloat.eqb x 1700000000000%float then "1700000000000" else "?".

Definition hmac_sha256_hex (k data : string) : string := k +:+ "/" +:+ data.

Definition SHARED_SECRET : string := "s3cret".
End Sample.

(** ** Predicates and sample states used in the statements *)

(** The flag is only ever raised by a listener of an existing client. *)
Definition client_behind_flag {R} (w : World R) : Prop :=
  redisConnected w = true → is_Some (redis w).

(** Every record of the map counts at least one call. *)
Definition counts_positive (m : gmap string CounterRecord) : Prop :=
  ∀ k r, m !! k = Some r → 1 ≤ count r.

(** The response of the handler as a function of the counter result. *)
Definition answer (points current ttl : Z) : Response :=
  if current >? points then mkResponse 429 (Denied ttl)
  else send_ok (Allowed (points - current)).

(** A process without a client, holding one record that expired at 1000. *)
Definition sample_world : World SimRedis.t :=
  mkWorld None false {[ "rl:a" := mkRecord 7 1000 ]} [].

Definition sample_env : CallEnv := mkEnv 2000 LinkOk.

(** A state with a connected client whose server holds one key. *)
Definition connected_world : World SimRedis.t :=
  mkWorld (Some {[ "rl:a" := (3, Some 42) ]}) true ∅ [].

(** Six signed requests, one second apart, on the sample process. *)
Definition scenario_request : Request :=
  mkRequest RateLimitRoute (Some "Bearer s3cret") (Some "1700000000000")
    (Some "s3cret/1700000000000")
    (mkJoi None (Some (mkBody "test-user" (Some 5) (Some 10)))).

Definition scenario_at (i : Z) : Request * ReqEnv :=
  (scenario_request,
   mkReqEnv 1700000000005 (mkEnv (1700000000005 + 1000 * i) LinkOk)).

(** The same requests with a chosen fate of the Redis command, and a
    process whose client is connected to a server without keys. *)
Definition scenario_at_link (i : Z) (l : Link) : Request * ReqEnv :=
  (scenario_request,
   mkReqEnv 1700000000005 (mkEnv (1700000000005 + 1000 * i) l)).

Definition fresh_connected_world : World SimRedis.t :=
  mkWorld (Some ∅) true ∅ [].

(** A signed [POST /ratelimit] that comes without a body. *)
Definition no_body_request : Request :=
  mkRequest RateLimitRoute (Some "Bearer s3cret") (Some "1700000000000")
    (Some "s3cret/1700000000000") (mkJoi None None).

(** A request with [X-Timestamp: 0] and a signature. *)
Definition zero_timestamp_request : Request :=
  mkRequest RateLimitRoute (Some "Bearer s3cret") (Some "0") (Some "abc")
    (mkJoi None (Some (mkBody "test-user" None None))).

(** An authorized [GET /health]: no timestamp, no signature. *)
Definition health_request : Request :=
  mkRequest HealthRoute (Some "Bearer s3cret") None None
    (mkJoi None None).

(** The store size the specification describes for [/health]: that of the
    backend serving the calls, the server's when the flag is up, the
    map's otherwise. *)
Definition authoritative_store_size (w : World SimRedis.t) : nat :=
  if redisConnected w then from_option size 0%nat (redis w)
  else size (memoryStore w).

(** ** Further code and predicates *)

(** [retryStrategy(times)] of the client options, lines 36-39: [None] is
    the [null] that stops the reconnection attempts. *)
Definition retryStrategy (times : Z) : option Z :=
  if times >? 3 then None else Some (Z.min (times * 200) 2000).

(** The limit and the window a request with a body asks for (line 187),
    and the key the counter of a body is stored under (line 189). *)
Definition points_of (req : Request) : Z :=
  default_to 100 (value (joi req) ≫= points).

Definition duration_of (req : Request) : Z :=
  default_to 60 (value (joi req) ≫= duration).

Definition redisKey_of (body : RateLimitBody) : string :=
  "rl:" +:+ key body.

(** [Number.isSafeInteger]: the integers on which the arithmetic of the
    program, done on binary64 numbers, is exact. *)
Definition safe_integer (z : Z) : Prop :=
  - 9007199254740991 ≤ z ≤ 9007199254740991.

(** A [POST /ratelimit] for the key [k] that passes the hook and the
    schema. *)
Definition counted_call (SHARED_SECRET : string) (Number : option string → float)
    (Number_toString : float → string) (hmac_sha256_hex : string → string → string)
    (k : string) (p : Request * ReqEnv) : Prop :=
  route p.1 = RateLimitRoute ∧
  error (joi p.1) = None ∧
  key <$> value (joi p.1) = Some k ∧
  preHandler SHARED_SECRET Number Number_toString hmac_sha256_hex
    (guard_now p.2) p.1 = Pass.

(** Every key of the map was built by the handler. *)
Definition keys_prefixed (m : gmap string CounterRecord) : Prop :=
  ∀ k r, m !! k = Some r → ∃ s, k = "rl:" +:+ s.

(** ** Lemmas on the sweep *)

Lemma sweep_entry_lookup (now : Z) (acc : gmap string CounterRecord)
    (e : string * CounterRecord) (k : string) (r : CounterRecord) :
  sweep_entry now acc e !! k = Some r ↔
  acc !! k = Some r ∧ ¬ (e.1 = k ∧ expiresAt e.2 ≤ now).
Proof.
  unfold sweep_entry. case_bool_decide as Hexp.
  - destruct (decide (e.1 = k)) as [->|Hne].
    + rewrite lookup_delete_eq. split; [discriminate | intros [_ Hn]; tauto].
    + rewrite lookup_delete_ne by done. tauto.
  - tauto.
Qed.

Lemma sweep_fold_lookup (now : Z) (l : list (string * CounterRecord))
    (acc : gmap string CounterRecord) (k : string) (r : CounterRecord) :
  foldl (sweep_entry now) acc l !! k = Some r ↔
  acc !! k = Some r ∧ ∀ r', (k, r') ∈ l → now < expiresAt r'.
Proof.
  revert acc. induction l as [|e l IH]; intros acc; simpl.
  - split; [intros Hk; split; [done | intros r' Hin; inversion Hin] | tauto].
  - rewrite IH, sweep_entry_lookup. split.
    + intros [[Hk Hne] Hl]. split; [done|]. intros r' Hin.
      apply elem_of_cons in Hin as [Heq|Hin]; [|by apply Hl].
      subst e. simpl in Hne. destruct (decide (expiresAt r' ≤ now)); [tauto | lia].
    + intros [Hk Hl]. split; [split; [done|] |].
      * intros [Hek Hexp]. destruct e as [k' r']; simpl in *; subst k'.
        specialize (Hl r' ltac:(left)). lia.
      * intros r' Hin. apply Hl. by right.
Qed.

(** What the sweep leaves: exactly the records that have not expired,
    each one as it was. *)
Lemma sweep_store_lookup (now : Z) (m : gmap string CounterRecord)
    (k : string) (r : CounterRecord) :
  sweep_store now m !! k = Some r ↔ m !! k = Some r ∧ now < expiresAt r.
Proof.
  unfold sweep_store. rewrite sweep_fold_lookup. split.
  - intros [Hk Hl]. split; [done|]. apply Hl. by apply elem_of_map_to_list.
  - intros [Hk Hlive]. split; [done|]. intros r' Hin.
    apply elem_of_map_to_list in Hin. congruence.
Qed.

(** ** The counting layer *)

Section CounterFacts.
Context {R : Type} `{RedisServer R}.
Implicit Types (w : World R) (env : CallEnv) (key : string).

(** The Redis attempt never touches the in-process map or the flag. *)
Lemma rateLimit_redis_frame key limit duration env w :
  memoryStore (rateLimit_redis key limit duration env w).1 = memoryStore w ∧
  redisConnected (rateLimit_redis key limit duration env w).1 = redisConnected w.
Proof.
  unfold rateLimit_redis.
  destruct (redis w) as [srv|]; [|done].
  destruct (redisConnected w) eqn:Hc; [|by simpl].
  destruct (redis_eval _ _ srv) as [srv' [e|res]]; by simpl.
Qed.

(** When the Redis attempt yields nothing, the call is the in-memory
    code run on the state the attempt left. *)
Lemma rateLimit_local key limit duration env w w1 :
  rateLimit_redis key limit duration env w = (w1, None) →
  rateLimit key limit duration env w =
    ((rateLimit_memory key duration (now env) w1).1,
     inr (rateLimit_memory key duration (now env) w1).2).
Proof.
  intros Hr. unfold rateLimit. rewrite Hr.
  by destruct (rateLimit_memory key duration (now env) w1).
Qed.

Lemma rateLimit_local_store key limit duration env w w1 :
  rateLimit_redis key limit duration env w = (w1, None) →
  memoryStore w1 = memoryStore w.
Proof.
  intros Hr. pose proof (rateLimit_redis_frame key limit duration env w) as [Hm _].
  by rewrite Hr in Hm.
Qed.

(** The in-memory code on a key without a live record. *)
Lemma rateLimit_memory_fresh key duration now w :
  (memoryStore w !! key = None ∨
   ∃ existing, memoryStore w !! key = Some existing ∧ expiresAt existing ≤ now) →
  rateLimit_memory key duration now w =
    (mkWorld (redis w) (redisConnected w)
       (<[key := mkRecord 1 (now + duration * 1000)]> (memoryStore w)) (trace w),
     mkResult 1 duration).
Proof.
  unfold rateLimit_memory. intros [-> | (existing & -> & Hexp)]; [done|].
  rewrite bool_decide_eq_false_2 by lia. done.
Qed.

(** The in-memory code on a key with a live record. *)
Lemma rateLimit_memory_live key duration now w existing :
  memoryStore w !! key = Some existing → expiresAt existing > now →
  rateLimit_memory key duration now w =
    (mkWorld (redis w) (redisConnected w)
       (<[key := mkRecord (count existing + 1) (expiresAt existing)]> (memoryStore w))
       (trace w),
     mkResult (count existing + 1)
       (Math_ceil_div (expiresAt existing - now) 1000)).
Proof.
  unfold rateLimit_memory. intros -> Hlive.
  rewrite bool_decide_eq_true_2 by lia. done.
Qed.

(** C5.  Window reset law of the in-memory counter: when the call is
    served in memory and the record stored for the key has
    [now >= expiresAt], the call stores [{count: 1, expiresAt: now +
    duration*1000}] for the key and returns [{current: 1, ttl:
    duration}], whatever the count was. *)
Theorem window_reset_law key limit duration env w w1 existing :
  rateLimit_redis key limit duration env w = (w1, None) →
  memoryStore w !! key = Some existing →
  now env >= expiresAt existing →
  ∃ w', rateLimit key limit duration env w = (w', inr (mkResult 1 duration)) ∧
        memoryStore w' =
          <[key := mkRecord 1 (now env + duration * 1000)]> (memoryStore w) ∧
        memoryStore w' !! key = Some (mkRecord 1 (now env + duration * 1000)).
Proof.
  intros Hr Hk Hexp.
  pose proof (rateLimit_local_store _ _ _ _ _ _ Hr) as Hm.
  rewrite (rateLimit_local _ _ _ _ _ _ Hr).
  rewrite rateLimit_memory_fresh
    by (right; exists existing; rewrite Hm; split; [done | lia]).
  eexists; split; [reflexivity|]. simpl. rewrite Hm.
  split; [done | by rewrite lookup_insert_eq].
Qed.

(** C6.  Window start: when the call is served in memory and the key has
    no live record (no entry, or an entry with [expiresAt <= now]), it
    returns exactly [current = 1] and [ttl = duration]. *)
Theorem window_start key limit duration env w w1 :
  rateLimit_redis key limit duration env w = (w1, None) →
  (memoryStore w !! key = None ∨
   ∃ existing, memoryStore w !! key = Some existing ∧ expiresAt existing ≤ now env) →
  ∃ w', rateLimit key limit duration env w = (w', inr (mkResult 1 duration)) ∧
        memoryStore w' !! key = Some (mkRecord 1 (now env + duration * 1000)).
Proof.
  intros Hr Hfresh.
  pose proof (rateLimit_local_store _ _ _ _ _ _ Hr) as Hm.
  rewrite (rateLimit_local _ _ _ _ _ _ Hr).
  rewrite rateLimit_memory_fresh by (by rewrite Hm).
  eexists; split; [reflexivity|]. simpl. by rewrite lookup_insert_eq.
Qed.

(** C10.  In-window frame property: when the call is served in memory
    and the key has a live record ([expiresAt > now]), the map changes
    only at that key, where the count goes up by exactly 1 and
    [expiresAt] stays; a call with another [duration] gives the same
    map and the same result. *)
Theorem in_window_frame key limit duration duration' env w w1 w2 existing :
  rateLimit_redis key limit duration env w = (w1, None) →
  rateLimit_redis key limit duration' env w = (w2, None) →
  memoryStore w !! key = Some existing →
  expiresAt existing > now env →
  ∃ wa wb r,
    rateLimit key limit duration env w = (wa, inr r) ∧
    rateLimit key limit duration' env w = (wb, inr r) ∧
    current r = count existing + 1 ∧
    memoryStore wa =
      <[key := mkRecord (count existing + 1) (expiresAt existing)]> (memoryStore w) ∧
    memoryStore wa !! key =
      Some (mkRecord (count existing + 1) (expiresAt existing)) ∧
    (∀ k, k ≠ key → memoryStore wa !! k = memoryStore w !! k) ∧
    memoryStore wb = memoryStore wa.
Proof.
  intros Hr1 Hr2 Hk Hlive.
  pose proof (rateLimit_local_store _ _ _ _ _ _ Hr1) as Hm1.
  pose proof (rateLimit_local_store _ _ _ _ _ _ Hr2) as Hm2.
  rewrite (rateLimit_local _ _ _ _ _ _ Hr1), (rateLimit_local _ _ _ _ _ _ Hr2).
  rewrite (rateLimit_memory_live key duration (now env) w1 existing)
    by (by rewrite ?Hm1).
  rewrite (rateLimit_memory_live key duration' (now env) w2 existing)
    by (by rewrite ?Hm2).
  do 3 eexists. split; [reflexivity|]. split; [reflexivity|]. simpl.
  rewrite Hm1, Hm2. split_and!; try done.
  - by rewrite lookup_insert_eq.
  - intros k Hne. by rewrite lookup_insert_ne.
Qed.

(** C9.  Limit noninterference: two calls that differ only in [limit]
    return the same result and leave the same map, the same server and
    the same flag; the script itself is the same function of the server
    whatever limit it is given. *)
Theorem limit_noninterference key limit limit' duration env w :
  (rateLimit key limit duration env w).2 = (rateLimit key limit' duration env w).2 ∧
  memoryStore (rateLimit key limit duration env w).1 =
    memoryStore (rateLimit key limit' duration env w).1 ∧
  redis (rateLimit key limit duration env w).1 =
    redis (rateLimit key limit' duration env w).1 ∧
  redisConnected (rateLimit key limit duration env w).1 =
    redisConnected (rateLimit key limit' duration env w).1 ∧
  (∀ srv : R, RATE_LIMIT_SCRIPT [key] [limit; duration] srv =
              RATE_LIMIT_SCRIPT [key] [limit'; duration] srv).
Proof.
  assert (Hscript : ∀ srv : R, RATE_LIMIT_SCRIPT [key] [limit; duration] srv =
                               RATE_LIMIT_SCRIPT [key] [limit'; duration] srv)
    by reflexivity.
  assert (Heval : ∀ srv : R,
             redis_eval (link env) (RATE_LIMIT_SCRIPT [key] [limit; duration]) srv =
             redis_eval (link env) (RATE_LIMIT_SCRIPT [key] [limit'; duration]) srv)
    by reflexivity.
  split_and!; try done.
  all: unfold rateLimit, rateLimit_redis.
  all: destruct (redis w) as [srv|]; [destruct (redisConnected w) eqn:Hc|].
  all: try (destruct (rateLimit_memory key duration (now env) w); done).
  all: simpl take; rewrite (Heval srv).
  all: destruct (redis_eval (link env) (RATE_LIMIT_SCRIPT [key] [limit'; duration]) srv)
         as [srv' [e|[c t]]]; simpl; try done.
  all: unfold rateLimit_memory; simpl;
    destruct (memoryStore w !! key) as [existing|]; [case_bool_decide|]; done.
Qed.
End CounterFacts.

Lemma window_reset_law_witness :
  ∃ w', rateLimit "rl:a" 5 10 sample_env sample_world = (w', inr (mkResult 1 10)) ∧
        memoryStore w' = <["rl:a" := mkRecord 1 12000]> (memoryStore sample_world) ∧
        memoryStore w' !! "rl:a" = Some (mkRecord 1 12000).
Proof.
  apply (window_reset_law "rl:a" 5 10 sample_env sample_world sample_world
           (mkRecord 7 1000)); [reflexivity | reflexivity | simpl; lia].
Defined.

Lemma window_start_witness :
  ∃ w', rateLimit "rl:b" 5 10 sample_env sample_world = (w', inr (mkResult 1 10)) ∧
        memoryStore w' !! "rl:b" = Some (mkRecord 1 12000).
Proof.
  apply (window_start "rl:b" 5 10 sample_env sample_world sample_world);
    [reflexivity | left; reflexivity].
Defined.

Lemma in_window_frame_witness :
  ∃ wa wb r,
    rateLimit "rl:a" 5 10 (mkEnv 400 LinkOk) sample_world = (wa, inr r) ∧
    rateLimit "rl:a" 5 99 (mkEnv 400 LinkOk) sample_world = (wb, inr r) ∧
    current r = 8 ∧
    memoryStore wa = <["rl:a" := mkRecord 8 1000]> (memoryStore sample_world) ∧
    memoryStore wa !! "rl:a" = Some (mkRecord 8 1000) ∧
    (∀ k, k ≠ "rl:a" → memoryStore wa !! k = memoryStore sample_world !! k) ∧
    memoryStore wb = memoryStore wa.
Proof.
  apply (in_window_frame "rl:a" 5 10 99 (mkEnv 400 LinkOk) sample_world
           sample_world sample_world (mkRecord 7 1000));
    [reflexivity | reflexivity | reflexivity | simpl; lia].
Defined.

(** ** The admission decision and the routing between the backends *)

Section HandlerFacts.
Context {R : Type} `{RedisServer R}.
Implicit Types (w : World R) (env : CallEnv) (req : Request).

(** The promise of [rateLimit] always resolves. *)
Lemma rateLimit_resolves key limit duration env w :
  ∃ r, (rateLimit key limit duration env w).2 = inr r.
Proof.
  unfold rateLimit.
  destruct (rateLimit_redis key limit duration env w) as [w1 [r|]]; [by eexists|].
  destruct (rateLimit_memory key duration (now env) w1). by eexists.
Qed.

Lemma rateLimit_memory_frame key duration now w :
  redis (rateLimit_memory key duration now w).1 = redis w ∧
  redisConnected (rateLimit_memory key duration now w).1 = redisConnected w ∧
  trace (rateLimit_memory key duration now w).1 = trace w.
Proof.
  unfold rateLimit_memory.
  destruct (memoryStore w !! key) as [existing|]; [case_bool_decide|]; done.
Qed.

Lemma rateLimit_redis_client key limit duration env w :
  is_Some (redis w) → is_Some (redis (rateLimit_redis key limit duration env w).1).
Proof.
  unfold rateLimit_redis. intros [srv Hs]. rewrite Hs.
  destruct (redisConnected w); [|simpl; by rewrite Hs].
  destruct (redis_eval _ _ srv) as [srv' [e|res]]; by eexists.
Qed.

Lemma rateLimit_flag key limit duration env w :
  redisConnected (rateLimit key limit duration env w).1 = redisConnected w.
Proof.
  unfold rateLimit.
  pose proof (rateLimit_redis_frame key limit duration env w) as [_ Hc].
  destruct (rateLimit_redis key limit duration env w) as [w1 [r|]]; [done|].
  pose proof (rateLimit_memory_frame key duration (now env) w1) as (_ & Hc' & _).
  destruct (rateLimit_memory key duration (now env) w1). simpl in *. congruence.
Qed.

Lemma rateLimit_client key limit duration env w :
  is_Some (redis w) → is_Some (redis (rateLimit key limit duration env w).1).
Proof.
  intros Hs. unfold rateLimit.
  pose proof (rateLimit_redis_client key limit duration env w Hs) as Hs1.
  destruct (rateLimit_redis key limit duration env w) as [w1 [r|]]; [done|].
  pose proof (rateLimit_memory_frame key duration (now env) w1) as (Hr & _ & _).
  destruct (rateLimit_memory key duration (now env) w1). simpl in *. by rewrite Hr.
Qed.

Lemma rateLimit_keeps_client_behind_flag key limit duration env w :
  client_behind_flag w → client_behind_flag (rateLimit key limit duration env w).1.
Proof.
  unfold client_behind_flag. rewrite rateLimit_flag.
  intros Hinv Hc. by apply rateLimit_client, Hinv.
Qed.

(** C1.  The admission decision: for a body that passed validation and
    any result [{current, ttl}] of the counting layer, the handler
    answers 429 [{allowed: false, retryAfter: ttl}] when [current >
    points] and 200 [{allowed: true, remaining: points - current}]
    otherwise; [remaining] is never negative in an allowed answer. *)
Theorem admission_decision req env w body :
  error (joi req) = None →
  value (joi req) = Some body →
  let points := default_to 100 (points body) in
  let duration := default_to 60 (duration body) in
  ∀ w' r,
    rateLimit ("rl:" +:+ key body) points duration env w = (w', inr r) →
    (current r > points →
     post_ratelimit req env w = (w', inr (mkResponse 429 (Denied (ttl r))))) ∧
    (current r ≤ points →
     post_ratelimit req env w =
       (w', inr (mkResponse 200 (Allowed (points - current r)))) ∧
     0 ≤ points - current r) ∧
    (∀ st remaining,
       (post_ratelimit req env w).2 = inr (mkResponse st (Allowed remaining)) →
       0 ≤ remaining).
Proof.
  intros Hval Hbody points duration w' r Hrl.
  unfold post_ratelimit. rewrite Hval, Hbody. fold points duration. rewrite Hrl.
  split_and!.
  - intros Hgt. by rewrite (proj2 (Z.gtb_lt _ _)) by lia.
  - intros Hle. split; [|lia].
    destruct (current r >? points) eqn:Hcmp; [apply Z.gtb_lt in Hcmp; lia | done].
  - intros st remaining. destruct (current r >? points) eqn:Hcmp; simpl.
    + discriminate.
    + intros [= _ <-]. pose proof (Zgt_cases (current r) points) as Hc.
      rewrite Hcmp in Hc. lia.
Qed.

(** C2.  Routing of one call of the counting layer.  The promise never
    rejects and the flag is left as it was.  With the flag up,
    [redis.eval] is called; if it throws, the error is logged and the
    call is the in-memory code, and a later call finds the flag still
    up.  With the flag down nothing is sent to Redis.  A validated
    request is always answered with an allow or a deny. *)
Theorem shared_backend_routing key limit duration env w :
  client_behind_flag w →
  let res := rateLimit key limit duration env w in
  (∃ r, res.2 = inr r) ∧
  redisConnected res.1 = redisConnected w ∧
  client_behind_flag res.1 ∧
  (redisConnected w = true →
   ∃ srv, redis w = Some srv ∧
     (∃ rest, trace res.1 = (trace w ++ EvRedisEval key limit duration :: rest)%list) ∧
     (∀ srv' e,
        redis_eval (link env) (RATE_LIMIT_SCRIPT [key] [limit; duration]) srv
          = (srv', inl e) →
        let logged :=
          mkWorld (Some srv') true (memoryStore w)
            (trace w ++ [EvRedisEval key limit duration;
                         EvConsoleError "Redis eval error, falling back to memory:"])%list in
        res = ((rateLimit_memory key duration (now env) logged).1,
               inr (rateLimit_memory key duration (now env) logged).2)) ∧
     (∀ srv' reply,
        redis_eval (link env) (RATE_LIMIT_SCRIPT [key] [limit; duration]) srv
          = (srv', inr reply) →
        res.2 = inr (mkResult reply.1 reply.2) ∧
        memoryStore res.1 = memoryStore w)) ∧
  (redisConnected w = false →
   redis res.1 = redis w ∧ trace res.1 = trace w ∧
   res = ((rateLimit_memory key duration (now env) w).1,
          inr (rateLimit_memory key duration (now env) w).2)) ∧
  (∀ req body, error (joi req) = None → value (joi req) = Some body →
     ∃ w' resp, post_ratelimit req env w = (w', inr resp) ∧
       ((status resp = 200 ∧ ∃ remaining, payload resp = Allowed remaining) ∨
        (status resp = 429 ∧ ∃ retryAfter, payload resp = Denied retryAfter))).
Proof.
  intros Hinv res. split_and!.
  - apply rateLimit_resolves.
  - apply rateLimit_flag.
  - by apply rateLimit_keeps_client_behind_flag.
  - intros Hc. destruct (Hinv Hc) as [srv Hs]. exists srv. split; [done|].
    subst res. unfold rateLimit, rateLimit_redis. rewrite Hs, Hc. simpl take.
    destruct (redis_eval _ _ srv) as [srv1 [e1|reply]] eqn:Hev.
    + split_and!.
      * pose proof (rateLimit_memory_frame key duration (now env)
          (mkWorld (Some srv1) true (memoryStore w)
             ((trace w ++ [EvRedisEval key limit duration]) ++
              [EvConsoleError "Redis eval error, falling back to memory:"])%list))
          as (_ & _ & Ht).
        destruct (rateLimit_memory _ _ _ _) as [w2 r2]. simpl in *.
        rewrite Ht, <- app_assoc. by eexists.
      * intros srv' e [= <- _]. simpl. rewrite <- app_assoc. simpl.
        by destruct (rateLimit_memory _ _ _ _).
      * intros srv' reply' [=].
    + split_and!.
      * simpl. by exists [].
      * intros srv' e [=].
      * intros srv' reply' [= _ <-]. done.
  - intros Hc. subst res. unfold rateLimit, rateLimit_redis. rewrite Hc.
    assert (Heq : (match redis w with Some _ | _ => (w, None (A:=RateResult)) end)
                  = (w, None)) by (by destruct (redis w)).
    rewrite Heq.
    pose proof (rateLimit_memory_frame key duration (now env) w) as (Hr & _ & Ht).
    by destruct (rateLimit_memory key duration (now env) w).
  - intros req body Hval Hbody. unfold post_ratelimit. rewrite Hval, Hbody.
    match goal with
    | |- context [rateLimit ?a ?b ?c env w] =>
        destruct (rateLimit_resolves a b c env w) as [r Hr];
        destruct (rateLimit a b c env w) as [w' out]
    end.
    simpl in Hr. subst out.
    destruct (current r >? _); do 2 eexists; (split; [reflexivity|]);
      [right | left]; simpl; eauto.
Qed.
End HandlerFacts.

(** The client is behind the flag in every state the process reaches. *)
Section Reachable.
Context {R : Type} `{RedisServer R}.
Variable SHARED_SECRET : string.
Variable Number : option string → float.
Variable Number_toString : float → string.
Variable hmac_sha256_hex : string → string → string.

Lemma connectRedis_client_behind_flag (REDIS_URL : option string) (server : R) :
  client_behind_flag (connectRedis REDIS_URL server boot).
Proof. unfold connectRedis. by destruct (not_string REDIS_URL). Qed.

Lemma step_client_behind_flag (a : Action) (w : World R) :
  client_behind_flag w →
  client_behind_flag
    (step SHARED_SECRET Number Number_toString hmac_sha256_hex w a).
Proof.
  intros Hinv. destruct a as [req env|now|ev]; simpl.
  - unfold serve. destruct (preHandler _ _ _ _ _ req); [|done].
    destruct (route req); [|done]. unfold post_ratelimit.
    destruct (error (joi req)); [done|].
  destruct (value (joi req)) as [body|]; [|done].
    match goal with
    | |- context [rateLimit ?a ?b ?c ?e w] =>
        pose proof (rateLimit_keeps_client_behind_flag a b c e w Hinv) as Hrl;
        destruct (rateLimit a b c e w) as [w' [x|r]]
    end; [done|].
    by destruct (current r >? _).
  - exact Hinv.
  - unfold redis_on. destruct (redis w) as [srv|] eqn:Hs; [|done].
    destruct ev; intros Hc; simpl in *; by try (rewrite Hs).
Qed.

Lemma run_client_behind_flag (acts : list Action) (w : World R) :
  client_behind_flag w →
  client_behind_flag
    (run SHARED_SECRET Number Number_toString hmac_sha256_hex acts w).
Proof.
  revert w. induction acts as [|a acts IH]; intros w Hinv; [done|].
  simpl. apply IH. by apply step_client_behind_flag.
Qed.
End Reachable.

Lemma admission_decision_witness :
  post_ratelimit
    (mkRequest RateLimitRoute None None None (mkJoi None (Some (mkBody "a" (Some 5) None))))
    (mkEnv 400 LinkOk) sample_world
  = (mkWorld None false (<["rl:a" := mkRecord 8 1000]> (memoryStore sample_world)) [],
     inr (mkResponse 429 (Denied 1))).
Proof.
  refine (proj1 (admission_decision
                   (mkRequest RateLimitRoute None None None
                      (mkJoi None (Some (mkBody "a" (Some 5) None))))
                   (mkEnv 400 LinkOk) sample_world
                   (mkBody "a" (Some 5) None) _ _
                   (mkWorld None false
                      (<["rl:a" := mkRecord 8 1000]> (memoryStore sample_world)) [])
                   (mkResult 8 1) _) _).
  - reflexivity.
  - reflexivity.
  - vm_compute. reflexivity.
  - simpl. lia.
Defined.

(** The sample record is live at time 400 and already past a limit of 5:
    the answer is 429 with the second that is left. *)
Example post_ratelimit_denied :
  (post_ratelimit
     (mkRequest RateLimitRoute None None None (mkJoi None (Some (mkBody "a" (Some 5) None))))
     (mkEnv 400 LinkOk) sample_world).2
  = inr (mkResponse 429 (Denied 1)).
Proof. reflexivity. Qed.

Lemma connected_world_inv : client_behind_flag connected_world.
Proof. intros _. by eexists. Defined.

Lemma shared_backend_routing_witness :
  let res := rateLimit "rl:a" 5 60 (mkEnv 400 LinkRequestLost) connected_world in
  (∃ r, res.2 = inr r) ∧ redisConnected res.1 = true.
Proof.
  intros res.
  pose proof (shared_backend_routing "rl:a" 5 60 (mkEnv 400 LinkRequestLost)
                connected_world connected_world_inv) as (Hr & Hc & _).
  split; [exact Hr | exact Hc].
Defined.

(** With the link up the server counts; with the command lost the map
    counts, and the failure is in the log. *)
Example rateLimit_served_by_redis :
  (rateLimit "rl:a" 5 60 (mkEnv 400 LinkOk) connected_world).2
  = inr (mkResult 4 42).
Proof. reflexivity. Qed.

Example rateLimit_falls_back :
  let res := rateLimit "rl:a" 5 60 (mkEnv 400 LinkRequestLost) connected_world in
  res.2 = inr (mkResult 1 60) ∧
  memoryStore res.1 !! "rl:a" = Some (mkRecord 1 60400) ∧
  trace res.1 = [EvRedisEval "rl:a" 5 60;
                 EvConsoleError "Redis eval error, falling back to memory:"].
Proof. split_and!; reflexivity. Qed.

(** ** The map invariant *)

Section StoreInvariant.
Context {R : Type} `{RedisServer R}.
Variable SHARED_SECRET : string.
Variable Number : option string → float.
Variable Number_toString : float → string.
Variable hmac_sha256_hex : string → string → string.

#[local] Abbreviation step' := (step SHARED_SECRET Number Number_toString hmac_sha256_hex).
#[local] Abbreviation run' := (run SHARED_SECRET Number Number_toString hmac_sha256_hex).
#[local] Abbreviation serve' := (serve SHARED_SECRET Number Number_toString hmac_sha256_hex).

Lemma rateLimit_memory_counts key duration now (w : World R) :
  counts_positive (memoryStore w) →
  counts_positive (memoryStore (rateLimit_memory key duration now w).1).
Proof.
  intros Hinv. unfold rateLimit_memory.
  destruct (memoryStore w !! key) as [existing|] eqn:Hk; [case_bool_decide|];
    simpl; intros k r; rewrite lookup_insert; case_decide; subst;
    try (by apply Hinv); intros [= <-]; simpl; try lia.
  specialize (Hinv _ _ Hk). lia.
Qed.

Lemma rateLimit_counts key limit duration env (w : World R) :
  counts_positive (memoryStore w) →
  counts_positive (memoryStore (rateLimit key limit duration env w).1).
Proof.
  intros Hinv. unfold rateLimit.
  pose proof (rateLimit_redis_frame key limit duration env w) as [Hm _].
  destruct (rateLimit_redis key limit duration env w) as [w1 [r|]]; simpl in *.
  - by rewrite Hm.
  - pose proof (rateLimit_memory_counts key duration (now env) w1) as Hmem.
    destruct (rateLimit_memory key duration (now env) w1). simpl in *.
    apply Hmem. by rewrite Hm.
Qed.

Lemma post_ratelimit_counts req env (w : World R) :
  counts_positive (memoryStore w) →
  counts_positive (memoryStore (post_ratelimit req env w).1).
Proof.
  intros Hinv. unfold post_ratelimit.
  destruct (error (joi req)); [done|].
  destruct (value (joi req)) as [body|]; [|done].
  match goal with
  | |- context [rateLimit ?a ?b ?c env w] =>
      pose proof (rateLimit_counts a b c env w Hinv) as Hrl;
      destruct (rateLimit a b c env w) as [w' [e|r]]
  end; [done|].
  by destruct (current r >? _).
Qed.

Lemma serve_counts req env (w : World R) :
  counts_positive (memoryStore w) →
  counts_positive (memoryStore (serve' req env w).1).
Proof.
  intros Hinv. unfold serve.
  destruct (preHandler _ _ _ _ _ req); [|done].
  destruct (route req); [by apply post_ratelimit_counts | done].
Qed.

Lemma sweep_counts now (w : World R) :
  counts_positive (memoryStore w) → counts_positive (memoryStore (sweep now w)).
Proof.
  intros Hinv k r. simpl. rewrite sweep_store_lookup. intros [Hk _]. by eapply Hinv.
Qed.

Lemma redis_on_store ev (w : World R) : memoryStore (redis_on ev w) = memoryStore w.
Proof. unfold redis_on. destruct (redis w); [destruct ev|]; done. Qed.

Lemma step_counts a (w : World R) :
  counts_positive (memoryStore w) → counts_positive (memoryStore (step' w a)).
Proof.
  intros Hinv. destruct a as [req env|now|ev]; simpl.
  - by apply serve_counts.
  - by apply (sweep_counts now w).
  - by rewrite redis_on_store.
Qed.

(** C8.  Every record of the map has [count >= 1]: this holds of the
    empty map the process starts with and is kept by everything that
    happens to the process: a request (creation stores 1, an in-window
    increment adds 1), a sweep, a connection event.  The sweep keeps
    exactly the records with [expiresAt > now], each one as it was. *)
Theorem store_invariant (w : World R) :
  counts_positive (memoryStore w) →
  counts_positive (memoryStore (boot (R:=R))) ∧
  (∀ a, counts_positive (memoryStore (step' w a))) ∧
  (∀ key limit duration env,
     counts_positive (memoryStore (rateLimit key limit duration env w).1)) ∧
  (∀ key duration now,
     memoryStore w !! key = None →
     memoryStore (rateLimit_memory key duration now w).1 !! key
       = Some (mkRecord 1 (now + duration * 1000))) ∧
  (∀ key duration now existing,
     memoryStore w !! key = Some existing → expiresAt existing > now →
     memoryStore (rateLimit_memory key duration now w).1 !! key
       = Some (mkRecord (count existing + 1) (expiresAt existing))) ∧
  (∀ now k r,
     memoryStore (sweep now w) !! k = Some r ↔
     memoryStore w !! k = Some r ∧ now < expiresAt r).
Proof.
  intros Hinv. split_and!.
  - intros k r. simpl. by rewrite lookup_empty.
  - intros a. by apply step_counts.
  - intros. by apply rateLimit_counts.
  - intros key duration now Hk.
    rewrite rateLimit_memory_fresh by (by left). simpl. by rewrite lookup_insert_eq.
  - intros key duration now existing Hk Hlive.
    rewrite (rateLimit_memory_live _ _ _ _ existing) by done.
    simpl. by rewrite lookup_insert_eq.
  - intros now k r. simpl. apply sweep_store_lookup.
Qed.

(** Hence the invariant holds in every state the process reaches. *)
Lemma run_counts (acts : list Action) (w : World R) :
  counts_positive (memoryStore w) → counts_positive (memoryStore (run' acts w)).
Proof.
  revert w. induction acts as [|a acts IH]; intros w Hinv; [done|].
  simpl. apply IH. by apply step_counts.
Qed.
End StoreInvariant.

Lemma store_invariant_witness :
  counts_positive (memoryStore sample_world) ∧
  counts_positive (memoryStore (sweep 5000 sample_world)).
Proof.
  assert (Hinv : counts_positive (memoryStore sample_world)).
  { intros k r Hk. unfold sample_world in Hk. simpl in Hk.
    apply lookup_singleton_Some in Hk as [_ <-]. simpl. lia. }
  split; [exact Hinv|].
  exact (proj1 (proj2 (store_invariant Sample.SHARED_SECRET Sample.Number
                         Sample.Number_toString Sample.hmac_sha256_hex
                         sample_world Hinv))
           (ASweep 5000)).
Defined.

(** The sweep at time 5000 removes the sample record, which expired at
    1000; at time 500 it keeps it. *)
Example sweep_removes_expired :
  memoryStore (sweep 5000 sample_world) = ∅ ∧
  memoryStore (sweep 500 sample_world) = memoryStore sample_world.
Proof. split; apply map_eq; intros k; vm_compute; reflexivity. Qed.

(** ** Scenario A: six calls on one key *)

Lemma Math_ceil_div_bounds (x : Z) :
  0 < x ≤ 10000 → 1 ≤ Math_ceil_div x 1000 ≤ 10.
Proof.
  intros Hx. unfold Math_ceil_div.
  pose proof (Z.div_mod (- x) 1000 ltac:(lia)) as Hdm.
  pose proof (Z.mod_pos_bound (- x) 1000 ltac:(lia)) as Hm.
  lia.
Qed.

Section ScenarioA.
Context {R : Type} `{RedisServer R}.
Variable SHARED_SECRET : string.
Variable Number : option string → float.
Variable Number_toString : float → string.
Variable hmac_sha256_hex : string → string → string.

#[local] Abbreviation guard :=
  (preHandler SHARED_SECRET Number Number_toString hmac_sha256_hex).
#[local] Abbreviation serve1 :=
  (serve SHARED_SECRET Number Number_toString hmac_sha256_hex).
#[local] Abbreviation serve_seq :=
  (serve_all SHARED_SECRET Number Number_toString hmac_sha256_hex).
#[local] Abbreviation scenario_call' :=
  (scenario_call SHARED_SECRET Number Number_toString hmac_sha256_hex).

(** With the flag down, such a request is the in-memory code followed by
    the comparison with the limit. *)
Lemma serve_scenario_call (req : Request) (env : ReqEnv) (w : World R) :
  scenario_call' (req, env) → redisConnected w = false →
  serve1 req env w =
    let m := rateLimit_memory "rl:test-user" 10 (now (call env)) w in
    (m.1, inr (answer 5 (current m.2) (ttl m.2))).
Proof.
  intros (Hroute & Hjoi & Hguard) Hc. simpl in Hroute, Hjoi, Hguard.
  unfold serve. rewrite Hguard, Hroute. unfold post_ratelimit. rewrite Hjoi. simpl.
  unfold rateLimit, rateLimit_redis. rewrite Hc.
  replace (match redis w with Some _ | _ => (w, None (A:=RateResult)) end)
    with (w, None (A:=RateResult)) by (by destruct (redis w)).
  destruct (rateLimit_memory _ _ _ w) as [w' r]. simpl.
  unfold answer. by destruct (current r >? 5).
Qed.

(** Calls made while the record of the key is live count up from it. *)
Lemma serve_all_live (reqs : list (Request * ReqEnv)) :
  ∀ (w : World R) (c E : Z),
    redisConnected w = false →
    memoryStore w !! "rl:test-user" = Some (mkRecord c E) →
    Forall (λ p, scenario_call' p ∧ now (call p.2) < E) reqs →
    ∃ w',
      serve_seq reqs w =
        (w', imap (λ i p, inr (answer 5 (c + 1 + Z.of_nat i)
                                 (Math_ceil_div (E - now (call p.2)) 1000))) reqs) ∧
      redisConnected w' = false ∧
      memoryStore w' !! "rl:test-user" = Some (mkRecord (c + Z.of_nat (length reqs)) E).
Proof.
  induction reqs as [|p reqs IH]; intros w c E Hc Hk Hall.
  - exists w. simpl. rewrite Z.add_0_r. done.
  - apply Forall_cons in Hall as [[Hp Hlive] Hall].
    destruct p as [req env]. simpl serve_all.
    rewrite (serve_scenario_call req env w Hp Hc).
    rewrite (rateLimit_memory_live _ _ _ _ (mkRecord c E)) by (simpl in *; done || lia).
    cbv zeta. simpl fst. simpl snd.
    edestruct (IH (mkWorld (redis w) (redisConnected w)
                     (<["rl:test-user" := mkRecord (c + 1) E]> (memoryStore w)) (trace w))
                 (c + 1) E) as (w' & Hrun & Hc' & Hk'); [done | | done |].
    { simpl. by rewrite lookup_insert_eq. }
    rewrite Hrun. exists w'. split_and!; [|done|].
    + f_equal. simpl. rewrite Z.add_0_r. f_equal.
      apply imap_ext. intros i p _. simpl. do 2 f_equal. lia.
    + rewrite Hk'. do 2 f_equal. simpl length. lia.
Qed.

End ScenarioA.


(** The sixth answer of that run is a denial with the five seconds that
    are left of the window. *)
Example scenario_A_run :
  (serve_all Sample.SHARED_SECRET Sample.Number Sample.Number_toString
     Sample.hmac_sha256_hex
     [scenario_at 0; scenario_at 1; scenario_at 2; scenario_at 3; scenario_at 4;
      scenario_at 5] sample_world).2 =
  [inr (mkResponse 200 (Allowed 4)); inr (mkResponse 200 (Allowed 3));
   inr (mkResponse 200 (Allowed 2)); inr (mkResponse 200 (Allowed 1));
   inr (mkResponse 200 (Allowed 0)); inr (mkResponse 429 (Denied 5))].
Proof. vm_compute. reflexivity. Qed.


(** ** The guard *)

Section GuardFacts.
Variable SHARED_SECRET : string.
Variable Number : option string → float.
Variable Number_toString : float → string.
Variable hmac_sha256_hex : string → string → string.

#[local] Abbreviation guard' :=
  (preHandler SHARED_SECRET Number Number_toString hmac_sha256_hex).

Lemma bearer_accepted :
  not_string (Some (bearer SHARED_SECRET))
  || strict_neq (Some (bearer SHARED_SECRET)) (bearer SHARED_SECRET) = false.
Proof. simpl. by rewrite String.eqb_refl. Qed.

(** C3, as the code has it.  For a request on a route other than
    [/health] whose [Authorization] is ["Bearer " + secret], the guard
    answers 400 "Missing signature" exactly when [Number(X-Timestamp)] is
    falsy ([NaN], which includes an absent header, or zero) or
    [X-Signature] is falsy (absent or empty); otherwise it goes on to the
    clock-skew check, then to the signature check. *)
Theorem missing_signature_exactly (date_now : Z) (req : Request) :
  route req ≠ HealthRoute →
  authorization req = Some (bearer SHARED_SECRET) →
  let ts := Number (x_timestamp req) in
  (guard' date_now req = Reply (mkResponse 400 (ErrorBody "Missing signature")) ↔
   not_number ts = true ∨ not_string (x_signature req) = true) ∧
  (not_number ts = false → not_string (x_signature req) = false →
   guard' date_now req =
     if PrimFloat.ltb MAX_CLOCK_SKEW_MS
          (PrimFloat.abs (PrimFloat.sub (number_of_Z date_now) ts))
     then Reply (mkResponse 401 (ErrorBody "Expired request"))
     else if strict_neq (x_signature req)
               (hmac SHARED_SECRET hmac_sha256_hex (Number_toString ts))
          then Reply (mkResponse 401 (ErrorBody "Invalid signature"))
          else Pass).
Proof.
  intros Hroute Hauth ts. unfold preHandler.
  destruct (route req) eqn:Hr; [clear Hroute | done]. simpl.
  rewrite Hauth, bearer_accepted. fold ts.
  destruct (not_number ts) eqn:Hts; simpl.
  - split; [split; [by left | done] | done].
  - destruct (not_string (x_signature req)) eqn:Hsig.
    + split; [split; [by right | done] | done].
    + split; [|done]. split; [|intros [|]; done].
      destruct (PrimFloat.ltb _ _); [done|].
      by destruct (strict_neq _ _).
Qed.
End GuardFacts.

(** C3 as stated fails: [X-Timestamp: 0] parses as a number and
    [X-Signature] is present, and the answer is 400 "Missing signature". *)
Lemma missing_signature_on_zero_timestamp :
  ¬ (preHandler Sample.SHARED_SECRET Sample.Number Sample.Number_toString
       Sample.hmac_sha256_hex 1700000000000 zero_timestamp_request
       = Reply (mkResponse 400 (ErrorBody "Missing signature")) ↔
     PrimFloat.is_nan (Sample.Number (x_timestamp zero_timestamp_request)) = true ∨
     x_signature zero_timestamp_request = None).
Proof.
  intros [Hclaim _].
  destruct (Hclaim ltac:(vm_compute; reflexivity)) as [Hnan | Habsent].
  - vm_compute in Hnan. discriminate.
  - discriminate.
Qed.

Lemma missing_signature_exactly_witness :
  preHandler Sample.SHARED_SECRET Sample.Number Sample.Number_toString
    Sample.hmac_sha256_hex 1700000000000 zero_timestamp_request
  = Reply (mkResponse 400 (ErrorBody "Missing signature")).
Proof.
  apply (proj1 (missing_signature_exactly Sample.SHARED_SECRET Sample.Number
                  Sample.Number_toString Sample.hmac_sha256_hex
                  1700000000000 zero_timestamp_request
                  ltac:(discriminate) ltac:(reflexivity))).
  left. vm_compute. reflexivity.
Defined.

(** Scenarios C, D and E of the specification, on the sample
    collaborators. *)
Example scenario_C_missing_timestamp :
  preHandler Sample.SHARED_SECRET Sample.Number Sample.Number_toString
    Sample.hmac_sha256_hex 1700000000005
    (mkRequest RateLimitRoute (Some "Bearer s3cret") None
       (Some "s3cret/1700000000000") (joi scenario_request))
  = Reply (mkResponse 400 (ErrorBody "Missing signature")).
Proof. vm_compute. reflexivity. Qed.

Example scenario_D_expired :
  preHandler Sample.SHARED_SECRET Sample.Number Sample.Number_toString
    Sample.hmac_sha256_hex 1700000040000 scenario_request
  = Reply (mkResponse 401 (ErrorBody "Expired request")).
Proof. vm_compute. reflexivity. Qed.

Example scenario_E_wrong_secret :
  preHandler Sample.SHARED_SECRET Sample.Number Sample.Number_toString
    Sample.hmac_sha256_hex 1700000000005
    (mkRequest RateLimitRoute (Some "Bearer s3cret") (Some "1700000000000")
       (Some "other/1700000000000") (joi scenario_request))
  = Reply (mkResponse 401 (ErrorBody "Invalid signature")).
Proof. vm_compute. reflexivity. Qed.

(** ** The health route *)

Section HealthFacts.
Context {R : Type} `{RedisServer R}.
Variable SHARED_SECRET : string.
Variable Number : option string → float.
Variable Number_toString : float → string.
Variable hmac_sha256_hex : string → string → string.

(** C4, as the code has it.  An authorized [GET /health] is answered 200
    with [status: "ok"], [redis: "connected"] when the flag is up and
    ["disconnected (using memory fallback)"] otherwise, and
    [memoryStoreSize] equal to the number of entries of the in-process
    map, whatever the flag; the state is left as it was. *)
Theorem health_report (req : Request) (env : ReqEnv) (w : World R) :
  route req = HealthRoute →
  authorization req = Some (bearer SHARED_SECRET) →
  serve SHARED_SECRET Number Number_toString hmac_sha256_hex req env w =
    (w, inr (mkResponse 200
               (HealthBody "ok"
                  (if redisConnected w then "connected"
                   else "disconnected (using memory fallback)")
                  (size (memoryStore w))))).
Proof.
  intros Hroute Hauth. unfold serve, preHandler. rewrite Hroute. simpl.
  rewrite Hauth, bearer_accepted. reflexivity.
Qed.
End HealthFacts.

(** C4 as stated fails: with the flag up, one key on the server and an
    empty map, the answer carries [memoryStoreSize: 0], not 1. *)
Lemma health_size_is_not_authoritative :
  authoritative_store_size connected_world = 1%nat ∧
  (serve Sample.SHARED_SECRET Sample.Number Sample.Number_toString
     Sample.hmac_sha256_hex health_request
     (mkReqEnv 1700000000005 (mkEnv 1700000000005 LinkOk)) connected_world).2
  = inr (mkResponse 200 (HealthBody "ok" "connected" 0)) ∧
  (serve Sample.SHARED_SECRET Sample.Number Sample.Number_toString
     Sample.hmac_sha256_hex health_request
     (mkReqEnv 1700000000005 (mkEnv 1700000000005 LinkOk)) connected_world).2
  ≠ inr (mkResponse 200
           (HealthBody "ok" "connected" (authoritative_store_size connected_world))).
Proof.
  split_and!; [vm_compute; reflexivity | vm_compute; reflexivity |].
  vm_compute. discriminate.
Qed.

Lemma health_report_witness :
  serve Sample.SHARED_SECRET Sample.Number Sample.Number_toString
    Sample.hmac_sha256_hex health_request
    (mkReqEnv 1700000000005 (mkEnv 1700000000005 LinkOk)) connected_world
  = (connected_world, inr (mkResponse 200 (HealthBody "ok" "connected" 0))).
Proof.
  rewrite (health_report Sample.SHARED_SECRET Sample.Number Sample.Number_toString
             Sample.hmac_sha256_hex health_request
             (mkReqEnv 1700000000005 (mkEnv 1700000000005 LinkOk)) connected_world
             ltac:(reflexivity) ltac:(reflexivity)).
  reflexivity.
Defined.

(** ** Further properties of the in-memory counter *)

Lemma Math_ceil_div_spec (x : Z) :
  (Math_ceil_div x 1000 - 1) * 1000 < x ≤ Math_ceil_div x 1000 * 1000.
Proof.
  unfold Math_ceil_div.
  pose proof (Z.div_mod (- x) 1000 ltac:(lia)) as Hdm.
  pose proof (Z.mod_pos_bound (- x) 1000 ltac:(lia)) as Hm.
  lia.
Qed.

Section MemoryCounter.
Context {R : Type} `{RedisServer R}.
Implicit Types (w : World R).

(** X2.  The [ttl] returned for a live record is honoured: a call on the
    same key made [ttl] seconds later, or any time after that, finds the
    window over and starts a new one with [current = 1]. *)
Theorem retry_after_opens_window key duration duration' now now' w existing :
  memoryStore w !! key = Some existing →
  expiresAt existing > now →
  now' >= now + ttl (rateLimit_memory key duration now w).2 * 1000 →
  (rateLimit_memory key duration' now'
     (rateLimit_memory key duration now w).1).2 = mkResult 1 duration'.
Proof.
  intros Hk Hlive.
  rewrite (rateLimit_memory_live _ _ _ _ existing) by done. simpl.
  intros Hlater.
  pose proof (Math_ceil_div_spec (expiresAt existing - now)) as Hceil.
  rewrite rateLimit_memory_fresh; [done|].
  right. eexists. simpl. rewrite lookup_insert_eq. split; [done|]. simpl. lia.
Qed.

(** X3.  Bounds on what the in-memory code returns: with [duration >= 1]
    the [ttl] is at least 1, and when every stored count is at least 1 so
    is [current]; for a live record read at a clock [now >= 0], whose
    [expiresAt] and incremented count are safe integers, [current] is
    the count plus one and the [ttl] is the time that is left, rounded up
    to whole seconds. *)
Theorem memory_result_bounds key duration now w :
  duration >= 1 →
  counts_positive (memoryStore w) →
  let r := (rateLimit_memory key duration now w).2 in
  1 ≤ ttl r ∧ 1 ≤ current r ∧
  (∀ existing,
     memoryStore w !! key = Some existing → expiresAt existing > now →
     0 ≤ now →
     safe_integer (expiresAt existing) →
     safe_integer (count existing + 1) →
     current r = count existing + 1 ∧
     (ttl r - 1) * 1000 < expiresAt existing - now ≤ ttl r * 1000 ∧
     safe_integer (current r) ∧ safe_integer (ttl r)).
Proof.
  intros Hd Hinv. unfold rateLimit_memory, safe_integer.
  destruct (memoryStore w !! key) as [existing|] eqn:Hk; [case_bool_decide|]; simpl.
  - pose proof (Math_ceil_div_spec (expiresAt existing - now)) as Hceil.
    specialize (Hinv _ _ Hk). split_and!; [lia | lia |].
    intros ? [= <-] _ Hnow Hexp Hcount. split_and!; lia.
  - split_and!; [lia | lia |]. intros ? [= <-] ?. lia.
  - split_and!; [lia | lia |]. intros ? [=].
Qed.

(** The in-memory code writes one record at its key; the record and the
    result depend on the state only through the entry of that key. *)
Lemma rateLimit_memory_shape key duration now w :
  ∃ rec res,
    ∀ w2 : World R,
      memoryStore w2 !! key = memoryStore w !! key →
      rateLimit_memory key duration now w2 =
        (mkWorld (redis w2) (redisConnected w2)
           (<[key := rec]> (memoryStore w2)) (trace w2), res).
Proof.
  unfold rateLimit_memory.
  destruct (memoryStore w !! key) as [existing|] eqn:Hk;
    [destruct (decide (expiresAt existing > now))|].
  - exists (mkRecord (count existing + 1) (expiresAt existing)),
      (mkResult (count existing + 1) (Math_ceil_div (expiresAt existing - now) 1000)).
    intros w2 Hw2. rewrite Hw2, bool_decide_eq_true_2 by done. reflexivity.
  - exists (mkRecord 1 (now + duration * 1000)), (mkResult 1 duration).
    intros w2 Hw2. rewrite Hw2, bool_decide_eq_false_2 by done. reflexivity.
  - exists (mkRecord 1 (now + duration * 1000)), (mkResult 1 duration).
    intros w2 Hw2. rewrite Hw2. reflexivity.
Qed.

(** X4.  Counters of different keys do not interact: two in-memory calls
    on different keys can be made in either order, with the same results
    and the same final state. *)
Theorem distinct_keys_commute key1 key2 d1 d2 now1 now2 w :
  key1 ≠ key2 →
  let a := rateLimit_memory key1 d1 now1 w in
  let b := rateLimit_memory key2 d2 now2 a.1 in
  let b' := rateLimit_memory key2 d2 now2 w in
  let a' := rateLimit_memory key1 d1 now1 b'.1 in
  a.2 = a'.2 ∧ b.2 = b'.2 ∧ b.1 = a'.1.
Proof.
  intros Hne.
  destruct (rateLimit_memory_shape key1 d1 now1 w) as (rec1 & res1 & H1).
  destruct (rateLimit_memory_shape key2 d2 now2 w) as (rec2 & res2 & H2).
  cbv zeta. rewrite (H1 w eq_refl), (H2 w eq_refl). simpl.
  rewrite H2 by (simpl; by rewrite lookup_insert_ne).
  rewrite H1 by (simpl; by rewrite lookup_insert_ne).
  simpl. split_and!; [done | done |]. f_equal. by apply insert_insert_ne.
Qed.
End MemoryCounter.

Lemma retry_after_opens_window_witness :
  (rateLimit_memory "rl:a" 10 1400
     (rateLimit_memory "rl:a" 10 400 sample_world).1).2 = mkResult 1 10.
Proof.
  apply (retry_after_opens_window "rl:a" 10 10 400 1400 sample_world
           (mkRecord 7 1000)); [reflexivity | simpl; lia | vm_compute; discriminate].
Defined.

Lemma memory_result_bounds_witness :
  1 ≤ ttl (rateLimit_memory "rl:a" 10 400 sample_world).2 ∧
  1 ≤ current (rateLimit_memory "rl:a" 10 400 sample_world).2 ∧
  current (rateLimit_memory "rl:a" 10 400 sample_world).2 = 8 ∧
  (ttl (rateLimit_memory "rl:a" 10 400 sample_world).2 - 1) * 1000 < 1000 - 400
    ≤ ttl (rateLimit_memory "rl:a" 10 400 sample_world).2 * 1000.
Proof.
  assert (Hinv : counts_positive (memoryStore sample_world)).
  { intros k r Hk. unfold sample_world in Hk. simpl in Hk.
    apply lookup_singleton_Some in Hk as [_ <-]. simpl. lia. }
  pose proof (memory_result_bounds "rl:a" 10 400 sample_world ltac:(lia) Hinv)
    as (Ht & Hc & Hlive).
  destruct (Hlive (mkRecord 7 1000)) as (Hcur & Hceil & _);
    [reflexivity | simpl; lia | lia | unfold safe_integer; simpl; lia
    | unfold safe_integer; simpl; lia |].
  split_and!; [exact Ht | exact Hc | exact Hcur | apply Hceil | apply Hceil].
Defined.

Lemma distinct_keys_commute_witness :
  (rateLimit_memory "rl:a" 10 400 sample_world).2
  = (rateLimit_memory "rl:a" 10 400
       (rateLimit_memory "rl:b" 20 500 sample_world).1).2.
Proof.
  exact (proj1 (distinct_keys_commute "rl:a" "rl:b" 10 20 400 500 sample_world
                  ltac:(discriminate))).
Defined.

(** ** Further properties of the sweep *)

Lemma sweep_store_lookup_eq (now : Z) (m : gmap string CounterRecord) (k : string) :
  sweep_store now m !! k =
    match m !! k with
    | Some r => if decide (now < expiresAt r) then Some r else None
    | None => None
    end.
Proof.
  apply option_eq. intros r. rewrite sweep_store_lookup.
  destruct (m !! k) as [r'|]; [case_decide|]; split;
    try (intros [[= <-] ?]); try (intros [= <-]); try done.
Qed.

Lemma sweep_store_insert_live (now : Z) (m : gmap string CounterRecord)
    (k : string) (r : CounterRecord) :
  now < expiresAt r →
  sweep_store now (<[k := r]> m) = <[k := r]> (sweep_store now m).
Proof.
  intros Hlive. apply map_eq. intros j.
  rewrite sweep_store_lookup_eq. destruct (decide (k = j)) as [->|Hne].
  - rewrite !lookup_insert_eq. by rewrite decide_True.
  - rewrite !lookup_insert_ne by done. by rewrite sweep_store_lookup_eq.
Qed.

(** X5.  Sweeps compose by the later time: sweeping at [now1] and at
    [now2 >= now1], in either order, leaves what one sweep at [now2]
    leaves; in particular a sweep repeated at the same time changes
    nothing more. *)
Theorem sweep_store_compose (now1 now2 : Z) (m : gmap string CounterRecord) :
  now1 ≤ now2 →
  sweep_store now2 (sweep_store now1 m) = sweep_store now2 m ∧
  sweep_store now1 (sweep_store now2 m) = sweep_store now2 m.
Proof.
  intros Hle. split; apply map_eq; intros k; rewrite !sweep_store_lookup_eq;
    destruct (m !! k) as [r|]; try done;
    repeat (case_decide; try done; try lia);
    rewrite ?decide_True by lia; done.
Qed.

(** X6.  The sweep only removes: what it leaves is a sub-map of the map
    it was given, never larger, and a map whose records are all live is
    left as it is. *)
Theorem sweep_store_shrinks (now : Z) (m : gmap string CounterRecord) :
  sweep_store now m ⊆ m ∧
  (size (sweep_store now m) ≤ size m)%nat ∧
  ((∀ k r, m !! k = Some r → now < expiresAt r) → sweep_store now m = m).
Proof.
  assert (Hsub : sweep_store now m ⊆ m).
  { apply map_subseteq_spec. intros k r Hk. by apply sweep_store_lookup in Hk as [? _]. }
  split_and!; [done | by apply map_subseteq_size |].
  intros Hlive. apply map_eq. intros k. rewrite sweep_store_lookup_eq.
  destruct (m !! k) as [r|] eqn:Hk; [|done].
  rewrite decide_True; [done | by eapply Hlive].
Qed.

Section SweepAndCalls.
Context {R : Type} `{RedisServer R}.

(** X7.  A sweep is invisible to the calls that follow it: an in-memory
    call with [duration >= 1] made at or after the time of a sweep
    returns what it would have returned without the sweep, and the two
    maps differ only by the records the sweep removed. *)
Theorem sweep_invisible_to_calls key duration now_sweep now (w : World R) :
  now_sweep ≤ now →
  duration >= 1 →
  (rateLimit_memory key duration now (sweep now_sweep w)).2
    = (rateLimit_memory key duration now w).2 ∧
  memoryStore (rateLimit_memory key duration now (sweep now_sweep w)).1
    = sweep_store now_sweep (memoryStore (rateLimit_memory key duration now w).1).
Proof.
  intros Hle Hd.
  destruct (memoryStore w !! key) as [existing|] eqn:Hk;
    [destruct (decide (expiresAt existing > now)) as [Hlive|Hexp]|].
  - rewrite (rateLimit_memory_live key duration now w existing) by done.
    rewrite (rateLimit_memory_live key duration now (sweep now_sweep w) existing);
      [| simpl; rewrite sweep_store_lookup_eq, Hk; rewrite decide_True by lia; done
       | done].
    simpl. split; [done|]. rewrite sweep_store_insert_live by (simpl; lia). done.
  - rewrite (rateLimit_memory_fresh key duration now w)
      by (right; exists existing; split; [done | lia]).
    rewrite (rateLimit_memory_fresh key duration now (sweep now_sweep w)).
    + simpl. split; [done|]. rewrite sweep_store_insert_live by (simpl; lia). done.
    + simpl. rewrite sweep_store_lookup_eq, Hk. case_decide; [|by left].
      right. exists existing. split; [done | lia].
  - rewrite (rateLimit_memory_fresh key duration now w) by (by left).
    rewrite (rateLimit_memory_fresh key duration now (sweep now_sweep w))
      by (left; simpl; by rewrite sweep_store_lookup_eq, Hk).
    simpl. split; [done|]. rewrite sweep_store_insert_live by (simpl; lia). done.
Qed.
End SweepAndCalls.

Lemma sweep_store_compose_witness :
  sweep_store 5000 (sweep_store 500 (memoryStore sample_world))
    = sweep_store 5000 (memoryStore sample_world) ∧
  sweep_store 500 (sweep_store 5000 (memoryStore sample_world))
    = sweep_store 5000 (memoryStore sample_world).
Proof.
  apply (sweep_store_compose 500 5000 (memoryStore sample_world)). lia.
Defined.

Lemma sweep_invisible_to_calls_witness :
  (rateLimit_memory "rl:a" 10 700 (sweep 500 sample_world)).2
    = (rateLimit_memory "rl:a" 10 700 sample_world).2 ∧
  memoryStore (rateLimit_memory "rl:a" 10 700 (sweep 500 sample_world)).1
    = sweep_store 500 (memoryStore (rateLimit_memory "rl:a" 10 700 sample_world).1).
Proof.
  apply (sweep_invisible_to_calls "rl:a" 10 500 700 sample_world); lia.
Defined.

(** ** Further properties of the request pipeline *)

Lemma answer_status (points current ttl : Z) :
  (status (answer points current ttl) = 200 ↔ current ≤ points) ∧
  (status (answer points current ttl) = 429 ↔ points < current).
Proof.
  unfold answer. destruct (current >? points) eqn:Hc; simpl.
  - apply Z.gtb_lt in Hc. split; split; (done || lia).
  - pose proof (Zgt_cases current points) as Hle. rewrite Hc in Hle.
    split; split; (done || lia).
Qed.

Section Pipeline.
Context {R : Type} `{RedisServer R}.
Variable SHARED_SECRET : string.
Variable Number : option string → float.
Variable Number_toString : float → string.
Variable hmac_sha256_hex : string → string → string.

#[local] Abbreviation serveP :=
  (serve SHARED_SECRET Number Number_toString hmac_sha256_hex).
#[local] Abbreviation serve_allP :=
  (serve_all SHARED_SECRET Number Number_toString hmac_sha256_hex).
#[local] Abbreviation counted :=
  (counted_call SHARED_SECRET Number Number_toString hmac_sha256_hex).
#[local] Abbreviation stepP :=
  (step SHARED_SECRET Number Number_toString hmac_sha256_hex).
#[local] Abbreviation runP :=
  (run SHARED_SECRET Number Number_toString hmac_sha256_hex).

(** With the flag down, or without a client, the call is the in-memory
    code and nothing else. *)
Lemma rateLimit_flag_down key limit duration env (w : World R) :
  redisConnected w = false ∨ redis w = None →
  rateLimit key limit duration env w =
    ((rateLimit_memory key duration (now env) w).1,
     inr (rateLimit_memory key duration (now env) w).2).
Proof.
  intros Hdown. unfold rateLimit, rateLimit_redis.
  replace (match redis w with
           | Some srv =>
               if redisConnected w then _ else (w, None (A:=RateResult))
           | None => (w, None)
           end) with (w, None (A:=RateResult)).
  - by destruct (rateLimit_memory key duration (now env) w).
  - destruct Hdown as [-> | ->]; [by destruct (redis w) | done].
Qed.

Lemma post_ratelimit_flag_down req env (w : World R) body :
  error (joi req) = None →
  value (joi req) = Some body →
  redisConnected w = false →
  post_ratelimit req env w =
    ((rateLimit_memory (redisKey_of body) (duration_of req) (now env) w).1,
     inr (answer (points_of req)
            (current (rateLimit_memory (redisKey_of body) (duration_of req) (now env) w).2)
            (ttl (rateLimit_memory (redisKey_of body) (duration_of req) (now env) w).2))).
Proof.
  intros Hval Hbody Hc. unfold post_ratelimit, points_of, duration_of, redisKey_of.
  rewrite Hval, Hbody. simpl.
  rewrite rateLimit_flag_down by (by left).
  unfold answer. by destruct (current _ >? _).
Qed.

Lemma serve_counted k req env (w : World R) :
  counted k (req, env) →
  redisConnected w = false →
  serveP req env w =
    ((rateLimit_memory ("rl:" +:+ k) (duration_of req) (now (call env)) w).1,
     inr (answer (points_of req)
            (current (rateLimit_memory ("rl:" +:+ k) (duration_of req)
                        (now (call env)) w).2)
            (ttl (rateLimit_memory ("rl:" +:+ k) (duration_of req)
                    (now (call env)) w).2))).
Proof.
  intros (Hroute & Hval & Hkey & Hguard) Hc. simpl in *.
  destruct (value (joi req)) as [body|] eqn:Hbody; [|done].
  injection Hkey as Hkey.
  unfold serve. rewrite Hguard, Hroute.
  rewrite (post_ratelimit_flag_down req (call env) w body) by done.
  unfold redisKey_of. by rewrite Hkey.
Qed.

(** Calls on a key whose record is live count up from it, each one
    judged against its own limit. *)
Lemma serve_all_counting k (reqs : list (Request * ReqEnv)) :
  ∀ (w : World R) (c E : Z),
    redisConnected w = false →
    memoryStore w !! ("rl:" +:+ k) = Some (mkRecord c E) →
    Forall (counted k) reqs →
    Forall (λ q, now (call q.2) < E) reqs →
    ∃ w',
      serve_allP reqs w =
        (w', imap (λ i q, inr (answer (points_of q.1) (c + 1 + Z.of_nat i)
                                 (Math_ceil_div (E - now (call q.2)) 1000))) reqs) ∧
      redisConnected w' = false ∧
      memoryStore w' !! ("rl:" +:+ k) = Some (mkRecord (c + Z.of_nat (length reqs)) E).
Proof.
  induction reqs as [|[req env] reqs IH]; intros w c E Hc Hk Hall Hlive.
  - exists w. simpl. rewrite Z.add_0_r. done.
  - apply Forall_cons in Hall as [Hq Hall]. apply Forall_cons in Hlive as [Ht Hlive].
    simpl in Ht. simpl serve_all.
    rewrite (serve_counted k req env w Hq Hc).
    rewrite (rateLimit_memory_live _ _ _ _ (mkRecord c E)) by (simpl; done || lia).
    simpl fst. simpl snd.
    edestruct (IH (mkWorld (redis w) (redisConnected w)
                     (<["rl:" +:+ k := mkRecord (c + 1) E]> (memoryStore w)) (trace w))
                 (c + 1) E) as (w' & Hrun & Hc' & Hk'); [done | | done | done |].
    { cbn [memoryStore]. by rewrite lookup_insert_eq. }
    rewrite Hrun. exists w'. split_and!; [|done|].
    + f_equal. cbn [imap]. rewrite Z.add_0_r. f_equal.
      apply imap_ext. intros i q _. simpl. do 2 f_equal. lia.
    + rewrite Hk'. do 2 f_equal. simpl length. lia.
Qed.


(** X8.  A request that is answered 400 or 401 (rejected by the hook or
    by the schema) leaves the whole state as it was: no counter moves
    and nothing is sent to Redis. *)
Theorem rejected_request_leaves_state req env (w : World R) resp :
  (serveP req env w).2 = inr resp →
  status resp = 400 ∨ status resp = 401 →
  (serveP req env w).1 = w.
Proof.
  unfold serve. destruct (preHandler _ _ _ _ _ req); [|done].
  destruct (route req); [|done].
  unfold post_ratelimit. destruct (error (joi req)); [done|].
  destruct (value (joi req)) as [body|]; [|done].
  destruct (rateLimit _ _ _ _ w) as [w' [e|r]]; [done|].
  destruct (current r >? _); simpl; intros [= <-] [Hs|Hs]; simpl in Hs; lia.
Qed.

Lemma rateLimit_other_keys key limit duration env (w : World R) k' :
  k' ≠ key →
  memoryStore (rateLimit key limit duration env w).1 !! k' = memoryStore w !! k'.
Proof.
  intros Hne. unfold rateLimit.
  pose proof (rateLimit_redis_frame key limit duration env w) as [Hm _].
  destruct (rateLimit_redis _ _ _ env w) as [w1 [r|]]; simpl in *; [by rewrite Hm|].
  destruct (rateLimit_memory_shape key duration (now env) w1) as (rec & res & Hshape).
  rewrite (Hshape w1 eq_refl). simpl. by rewrite lookup_insert_ne, Hm.
Qed.

(** X9.  A request never changes the counter of another key: after any
    [POST /ratelimit], served by Redis or in memory, every entry of the
    map other than the one of its own key is as before. *)
Theorem other_keys_untouched req env (w : World R) k' :
  (∀ body, value (joi req) = Some body → k' ≠ redisKey_of body) →
  memoryStore (post_ratelimit req env w).1 !! k' = memoryStore w !! k'.
Proof.
  intros Hne. unfold post_ratelimit. destruct (error (joi req)); [done|].
  destruct (value (joi req)) as [body|]; [|done].
  fold (redisKey_of body).
  pose proof (rateLimit_other_keys (redisKey_of body) (default_to 100 (points body))
                (default_to 60 (duration body)) env w k' (Hne body eq_refl)) as Hrl.
  destruct (rateLimit _ _ _ env w) as [w' [e|r]]; [done|].
  by destruct (current r >? _).
Qed.

Lemma step_keys_prefixed (a : Action) (w : World R) :
  keys_prefixed (memoryStore w) → keys_prefixed (memoryStore (stepP w a)).
Proof.
  intros Hinv. destruct a as [req env|now|ev]; simpl.
  - unfold serve. destruct (preHandler _ _ _ _ _ req); [|done].
    destruct (route req); [|done].
    unfold post_ratelimit. destruct (error (joi req)); [done|].
    destruct (value (joi req)) as [body|]; [|done].
    fold (redisKey_of body).
    intros k r Hk. destruct (decide (k = redisKey_of body)) as [->|Hne]; [by eexists|].
    pose proof (rateLimit_other_keys (redisKey_of body) (default_to 100 (points body))
                  (default_to 60 (duration body)) (call env) w k Hne) as Hrl.
    destruct (rateLimit _ _ _ (call env) w) as [w' [e|res]];
      [|destruct (current res >? _)]; simpl in *; rewrite Hrl in Hk; by eapply Hinv.
  - intros k r Hk. apply sweep_store_lookup in Hk as [Hk _]. by eapply Hinv.
  - by rewrite redis_on_store.
Qed.

(** X10.  Every key of the in-process map starts with ["rl:"], in every
    state the process reaches from its start. *)
Theorem keys_prefixed_reachable (REDIS_URL : option string) (server : R)
    (acts : list Action) :
  keys_prefixed (memoryStore (runP acts (connectRedis REDIS_URL server boot))).
Proof.
  assert (Hrun : ∀ (l : list Action) (w : World R),
             keys_prefixed (memoryStore w) → keys_prefixed (memoryStore (runP l w))).
  { induction l as [|a l IH]; intros w Hinv; [done|].
    simpl. apply IH. by apply step_keys_prefixed. }
  apply Hrun. unfold connectRedis.
  destruct (not_string REDIS_URL); intros k r Hk; simpl in Hk;
    by rewrite lookup_empty in Hk.
Qed.

Lemma step_without_client (a : Action) (w : World R) :
  redis w = None ∧ redisConnected w = false ∧ trace w = [] →
  redis (stepP w a) = None ∧ redisConnected (stepP w a) = false ∧ trace (stepP w a) = [].
Proof.
  intros (Hr & Hc & Ht). destruct a as [req env|now|ev]; simpl.
  - unfold serve. destruct (preHandler _ _ _ _ _ req); [|done].
    destruct (route req); [|done].
    unfold post_ratelimit. destruct (error (joi req)); [done|].
  destruct (value (joi req)) as [body|]; [|done].
    rewrite rateLimit_flag_down by (by left).
    match goal with
    | |- context [rateLimit_memory ?a ?b ?c w] =>
        pose proof (rateLimit_memory_frame a b c w) as (Hr' & Hc' & Ht')
    end.
    destruct (current _ >? _); simpl; rewrite Hr', Hc', Ht'; done.
  - done.
  - unfold redis_on. by rewrite Hr.
Qed.

(** X11.  Without [REDIS_URL] (unset or empty) the process never uses
    Redis: whatever happens, the client stays [null], the flag stays
    down and no [redis.eval] is ever issued. *)
Theorem no_url_never_uses_redis (REDIS_URL : option string) (server : R)
    (acts : list Action) :
  not_string REDIS_URL = true →
  let w := runP acts (connectRedis REDIS_URL server boot) in
  redis w = None ∧ redisConnected w = false ∧ trace w = [].
Proof.
  intros Hurl. unfold connectRedis. rewrite Hurl.
  assert (Hrun : ∀ (l : list Action) (w : World R),
             redis w = None ∧ redisConnected w = false ∧ trace w = [] →
             redis (runP l w) = None ∧ redisConnected (runP l w) = false ∧
             trace (runP l w) = []).
  { induction l as [|a l IH]; intros w Hinv; [done|].
    simpl. apply IH. by apply step_without_client. }
  by apply Hrun.
Qed.

(** X13.  After an [error] or a [close] event of the client the calls
    are served in memory, with nothing sent to Redis, and the event
    itself touches neither the map nor the server; a [connect] event of
    an existing client raises the flag again. *)
Theorem connection_events_route_calls ev key limit duration env (w : World R) :
  client_behind_flag w →
  memoryStore (redis_on ev w) = memoryStore w ∧
  redis (redis_on ev w) = redis w ∧
  (ev ≠ OnConnect →
   redisConnected (redis_on ev w) = false ∧
   rateLimit key limit duration env (redis_on ev w) =
     ((rateLimit_memory key duration (now env) (redis_on ev w)).1,
      inr (rateLimit_memory key duration (now env) (redis_on ev w)).2)) ∧
  (ev = OnConnect → is_Some (redis w) → redisConnected (redis_on ev w) = true).
Proof.
  intros Hinv.
  assert (Hflag : ev ≠ OnConnect → redisConnected (redis_on ev w) = false).
  { intros Hev. unfold redis_on. destruct (redis w) as [srv|] eqn:Hs.
    - by destruct ev.
    - destruct (redisConnected w) eqn:Hc; [|done].
      destruct (Hinv Hc) as [? ?]. congruence. }
  split_and!.
  - unfold redis_on. destruct (redis w); [destruct ev|]; done.
  - unfold redis_on. destruct (redis w) eqn:Hs; [destruct ev|]; done.
  - intros Hev. split; [by apply Hflag|].
    apply rateLimit_flag_down. left. by apply Hflag.
  - intros -> [srv Hs]. unfold redis_on. by rewrite Hs.
Qed.
End Pipeline.

(** ** Further properties of the guard *)

Lemma strict_neq_false (a : option string) (b : string) :
  strict_neq a b = false ↔ a = Some b.
Proof.
  destruct a as [s|]; simpl; [|split; discriminate].
  rewrite negb_false_iff, String.eqb_eq. split; [by intros -> | by intros [= ->]].
Qed.

Section GuardMore.
Variable SHARED_SECRET : string.
Variable Number : option string → float.
Variable Number_toString : float → string.
Variable hmac_sha256_hex : string → string → string.

#[local] Abbreviation guardG :=
  (preHandler SHARED_SECRET Number Number_toString hmac_sha256_hex).

Lemma bearer_check (auth : option string) :
  not_string auth || strict_neq auth (bearer SHARED_SECRET) = false ↔
  auth = Some (bearer SHARED_SECRET).
Proof.
  split.
  - intros [_ Hneq]%orb_false_iff. by apply strict_neq_false.
  - intros ->. apply bearer_accepted.
Qed.

(** X14.  The bearer token is checked first, on every route: a request
    whose [Authorization] is not exactly ["Bearer " + secret] is answered
    401 "Unauthorized" whatever its other headers and whatever the time,
    so it learns nothing about timestamps or signatures. *)
Theorem unauthorized_first (date_now : Z) (req : Request) :
  authorization req ≠ Some (bearer SHARED_SECRET) →
  guardG date_now req = Reply (mkResponse 401 (ErrorBody "Unauthorized")).
Proof.
  intros Hauth. unfold preHandler.
  destruct (not_string (authorization req)
            || strict_neq (authorization req) (bearer SHARED_SECRET)) eqn:Hb.
  - by destruct (String.eqb _ _).
  - by apply bearer_check in Hb.
Qed.

(** X15.  What lets a request through on a signed route: the guard
    passes exactly when the bearer token is right, [Number(X-Timestamp)]
    is a non-zero number within the clock skew, and [X-Signature] is the
    non-empty string [hmac(ts.toString())]. *)
Theorem guard_pass_exactly (date_now : Z) (req : Request) :
  route req ≠ HealthRoute →
  let ts := Number (x_timestamp req) in
  guardG date_now req = Pass ↔
  authorization req = Some (bearer SHARED_SECRET) ∧
  not_number ts = false ∧
  not_string (x_signature req) = false ∧
  PrimFloat.ltb MAX_CLOCK_SKEW_MS
    (PrimFloat.abs (PrimFloat.sub (number_of_Z date_now) ts)) = false ∧
  x_signature req =
    Some (hmac SHARED_SECRET hmac_sha256_hex (Number_toString ts)).
Proof.
  intros Hroute ts. unfold preHandler.
  destruct (route req) eqn:Hr; [clear Hroute | done]. simpl. fold ts.
  destruct (not_string (authorization req)
            || strict_neq (authorization req) (bearer SHARED_SECRET)) eqn:Hb.
  { split; [done|]. intros (Hauth & _). apply bearer_check in Hauth. congruence. }
  apply bearer_check in Hb.
  destruct (not_number _) eqn:Hts; simpl.
  { split; [done | intros (_ & ? & _); done]. }
  destruct (not_string (x_signature req)) eqn:Hsig.
  { split; [done | intros (_ & _ & ? & _); done]. }
  destruct (PrimFloat.ltb _ _) eqn:Hskew.
  { split; [done | intros (_ & _ & _ & ? & _); done]. }
  destruct (strict_neq (x_signature req) _) eqn:Hneq.
  - split; [done|]. intros (_ & _ & _ & _ & Heq).
    apply strict_neq_false in Heq. congruence.
  - apply strict_neq_false in Hneq. done.
Qed.

(** X16.  The guard keeps no memory of what it has seen: a request that
    passed once passes again at any later reading of the clock that is
    still within the skew of its timestamp. *)
Theorem replay_within_skew (now1 now2 : Z) (req : Request) :
  guardG now1 req = Pass →
  PrimFloat.ltb MAX_CLOCK_SKEW_MS
    (PrimFloat.abs (PrimFloat.sub (number_of_Z now2) (Number (x_timestamp req))))
    = false →
  guardG now2 req = Pass.
Proof.
  intros Hpass Hskew. unfold preHandler in *.
  destruct (String.eqb (routeUrl (route req)) "/health"); [exact Hpass|].
  destruct (not_string (authorization req)
            || strict_neq (authorization req) (bearer SHARED_SECRET));
    [discriminate|].
  destruct (not_number (Number (x_timestamp req)) || not_string (x_signature req));
    [discriminate|].
  rewrite Hskew.
  destruct (PrimFloat.ltb MAX_CLOCK_SKEW_MS
              (PrimFloat.abs
                 (PrimFloat.sub (number_of_Z now1) (Number (x_timestamp req)))));
    [discriminate | exact Hpass].
Qed.

(** X17.  On [/health] only the bearer token counts: the guard passes
    exactly when [Authorization] is ["Bearer " + secret], and the
    timestamp, the signature and the clock play no part. *)
Theorem health_guard (date_now : Z) (req : Request) :
  route req = HealthRoute →
  (guardG date_now req = Pass ↔ authorization req = Some (bearer SHARED_SECRET)) ∧
  (∀ date_now' ts sig,
     guardG date_now' (mkRequest HealthRoute (authorization req) ts sig (joi req))
       = guardG date_now req).
Proof.
  intros Hr. unfold preHandler. rewrite Hr. simpl. split; [|done].
  destruct (not_string (authorization req)
            || strict_neq (authorization req) (bearer SHARED_SECRET)) eqn:Hb.
  - split; [done|]. intros Hauth. apply bearer_check in Hauth. congruence.
  - by apply bearer_check in Hb.
Qed.
End GuardMore.

(** ** The script, the answers and the reconnection delays *)

Section ScriptFacts.
Context {R : Type} `{RedisServer R}.

(** X18.  What a reply of the script means: [current] is the reply of
    [INCR] and [ttl] the reply of [TTL]; [EXPIRE] is issued, with the
    duration of the call, only when [INCR] replied 1, so the expiry of a
    counter that already exists is never set again. *)
Theorem script_reply_inversion (k : string) (limit duration : Z) (s s' : R)
    (current ttl : Z) :
  RATE_LIMIT_SCRIPT [k] [limit; duration] s = (s', inr (current, ttl)) →
  ∃ s1, redis_INCR k s = (s1, inr current) ∧
        if current =? 1
        then ∃ s2 x, redis_EXPIRE k duration s1 = (s2, inr x) ∧
                     redis_TTL k s2 = (s', inr ttl)
        else redis_TTL k s1 = (s', inr ttl).
Proof.
  unfold RATE_LIMIT_SCRIPT. simpl. unfold mbind, Lua_bind, lua_bind.
  destruct (redis_INCR k s) as [s1 [e|c]] eqn:Hincr; [discriminate|].
  destruct (c =? 1) eqn:Hc.
  - destruct (redis_EXPIRE k duration s1) as [s2 [e|x]] eqn:Hexp; [discriminate|].
    destruct (redis_TTL k s2) as [s3 [e|t]] eqn:Httl; [discriminate|].
    unfold mret, Lua_ret, lua_ret. intros [= <- <- <-].
    exists s1. split; [done|]. rewrite Hc. by exists s2, x.
  - unfold mret at 1, Lua_ret, lua_ret.
    destruct (redis_TTL k s1) as [s3 [e|t]] eqn:Httl; [discriminate|].
    unfold mret, Lua_ret, lua_ret. intros [= <- <- <-].
    exists s1. split; [done|]. by rewrite Hc.
Qed.

Variable SHARED_SECRET : string.
Variable Number : option string → float.
Variable Number_toString : float → string.
Variable hmac_sha256_hex : string → string → string.

Lemma guard_reply_status (date_now : Z) (req : Request) (r : Response) :
  preHandler SHARED_SECRET Number Number_toString hmac_sha256_hex date_now req
    = Reply r →
  status r = 400 ∨ status r = 401.
Proof.
  unfold preHandler. intros Hg.
  repeat (case_match; simplify_eq); simpl; lia.
Qed.

Lemma post_ratelimit_answered req env (w : World R) :
  is_Some (value (joi req)) ∨ is_Some (error (joi req)) →
  ∃ resp, (post_ratelimit req env w).2 = inr resp ∧
          (status resp = 200 ∨ status resp = 400 ∨ status resp = 429).
Proof.
  intros Hbody. unfold post_ratelimit. destruct (error (joi req)) as [err|].
  { eexists. split; [reflexivity|]. simpl. lia. }
  destruct Hbody as [[body ->] | [? ?]]; [|done].
  match goal with
  | |- context [rateLimit ?a ?b ?c env w] =>
      destruct (rateLimit_resolves a b c env w) as [r Hr];
      destruct (rateLimit a b c env w) as [w' out]
  end.
  simpl in Hr. subst out.
  destruct (current r >? _); eexists; (split; [reflexivity|]); simpl; lia.
Qed.

(** X19.  Every request is answered with one of four statuses, 200, 400,
    401 or 429, whatever Redis does, with one exception: a
    [POST /ratelimit] that passes the hook and comes without a body,
    for which the schema reports no error and line 187 throws a
    [TypeError].  Nothing is counted for such a request. *)
Theorem answered_unless_no_body req env (w : World R) :
  let out := serve SHARED_SECRET Number Number_toString hmac_sha256_hex req env w in
  let no_body :=
    preHandler SHARED_SECRET Number Number_toString hmac_sha256_hex
      (guard_now env) req = Pass ∧
    route req = RateLimitRoute ∧
    error (joi req) = None ∧
    value (joi req) = None in
  (no_body →
   out = (w, inl (TypeError
                    "Cannot destructure property 'key' of 'value' as it is undefined."))) ∧
  (¬ no_body →
   ∃ resp, out.2 = inr resp ∧
     (status resp = 200 ∨ status resp = 400 ∨ status resp = 401 ∨ status resp = 429)).
Proof.
  cbv zeta. unfold serve. split.
  - intros (Hg & Hroute & Herr & Hbody). rewrite Hg, Hroute.
    unfold post_ratelimit. by rewrite Herr, Hbody.
  - intros Hnot.
    destruct (preHandler _ _ _ _ _ req) as [|r] eqn:Hg.
    + destruct (route req) eqn:Hroute.
      * destruct (error (joi req)) as [err|] eqn:Herr;
          [|destruct (value (joi req)) as [body|] eqn:Hbody; [|tauto]].
        -- destruct (post_ratelimit_answered req (call env) w)
             as (resp & Hresp & Hst); [right; rewrite Herr; by eexists|].
           exists resp. split; [done | lia].
        -- destruct (post_ratelimit_answered req (call env) w)
             as (resp & Hresp & Hst); [left; rewrite Hbody; by eexists|].
           exists resp. split; [done | lia].
      * eexists. split; [reflexivity|]. simpl. lia.
    + apply guard_reply_status in Hg. exists r. split; [done | lia].
Qed.
End ScriptFacts.

(** X20.  The window bounds the [ttl]: on a record the code has just
    created with [duration >= 1] at a clock [now0 >= 0], the end of the
    window [now0 + duration*1000] being a safe integer, a later call made
    before the window is over counts 2 and returns a [ttl] between 1 and
    that duration. *)
Theorem ttl_within_window {R : Type} `{RedisServer R} key duration duration'
    now0 now (w : World R) :
  memoryStore w !! key = None →
  duration >= 1 →
  0 ≤ now0 →
  safe_integer (now0 + duration * 1000) →
  now0 ≤ now < now0 + duration * 1000 →
  let w1 := (rateLimit_memory key duration now0 w).1 in
  let r := (rateLimit_memory key duration' now w1).2 in
  current r = 2 ∧ 1 ≤ ttl r ≤ duration.
Proof.
  intros Hk Hd Hnow0 Hsafe Hwin. rewrite rateLimit_memory_fresh by (by left). simpl.
  rewrite (rateLimit_memory_live _ _ _ _ (mkRecord 1 (now0 + duration * 1000)));
    [| simpl; by rewrite lookup_insert_eq | simpl; lia].
  simpl. split; [done|].
  pose proof (Math_ceil_div_spec (now0 + duration * 1000 - now)) as Hceil. lia.
Qed.

(** X21.  The reconnection delays: an attempt is made after 200, 400 and
    600 ms and then no more; the cap of 2000 ms is never reached. *)
Theorem retryStrategy_delays (times : Z) :
  (retryStrategy times = None ↔ times > 3) ∧
  (∀ delay, retryStrategy times = Some delay ↔ times ≤ 3 ∧ delay = times * 200) ∧
  (1 ≤ times ≤ 3 → ∃ delay, retryStrategy times = Some delay ∧ 200 ≤ delay ≤ 600).
Proof.
  unfold retryStrategy. destruct (times >? 3) eqn:Hc.
  - apply Z.gtb_lt in Hc. split_and!.
    + split; [lia | done].
    + intros delay. split; [done | lia].
    + lia.
  - pose proof (Zgt_cases times 3) as Hle. rewrite Hc in Hle. split_and!.
    + split; [done | lia].
    + intros delay. split.
      * intros [= <-]. lia.
      * intros [_ ->]. f_equal. lia.
    + intros Ht. eexists. split; [reflexivity | lia].
Qed.

(** ** The further properties at sample inputs *)

Lemma scenario_at_counted (i : Z) :
  counted_call Sample.SHARED_SECRET Sample.Number Sample.Number_toString
    Sample.hmac_sha256_hex "test-user" (scenario_at i).
Proof. split_and!; first [reflexivity | vm_compute; reflexivity]. Defined.


Lemma rejected_request_leaves_state_witness :
  (serve Sample.SHARED_SECRET Sample.Number Sample.Number_toString
     Sample.hmac_sha256_hex zero_timestamp_request
     (mkReqEnv 1700000000000 (mkEnv 1700000000000 LinkOk)) connected_world).1
  = connected_world.
Proof.
  apply (rejected_request_leaves_state Sample.SHARED_SECRET Sample.Number
           Sample.Number_toString Sample.hmac_sha256_hex zero_timestamp_request
           (mkReqEnv 1700000000000 (mkEnv 1700000000000 LinkOk)) connected_world
           (mkResponse 400 (ErrorBody "Missing signature")));
    [vm_compute; reflexivity | left; reflexivity].
Defined.

Lemma other_keys_untouched_witness :
  memoryStore (post_ratelimit scenario_request (mkEnv 400 LinkOk) sample_world).1
    !! "rl:a" = memoryStore sample_world !! "rl:a".
Proof.
  apply (other_keys_untouched scenario_request (mkEnv 400 LinkOk) sample_world "rl:a").
  intros body [= <-]. vm_compute. discriminate.
Defined.

Lemma no_url_never_uses_redis_witness :
  let w := run Sample.SHARED_SECRET Sample.Number Sample.Number_toString
             Sample.hmac_sha256_hex
             [ARedis OnConnect;
              ARequest (scenario_at 0).1 (scenario_at 0).2;
              ASweep 1700000020000]
             (connectRedis None (∅ : SimRedis.t) boot) in
  redis w = None ∧ redisConnected w = false ∧ trace w = [].
Proof.
  apply (no_url_never_uses_redis Sample.SHARED_SECRET Sample.Number
           Sample.Number_toString Sample.hmac_sha256_hex None (∅ : SimRedis.t)).
  reflexivity.
Defined.

Lemma connection_events_route_calls_witness :
  memoryStore (redis_on OnClose connected_world) = memoryStore connected_world ∧
  redis (redis_on OnClose connected_world) = redis connected_world.
Proof.
  pose proof (connection_events_route_calls OnClose "rl:a" 5 60 (mkEnv 400 LinkOk)
                connected_world connected_world_inv) as (Hm & Hr & _).
  split; [exact Hm | exact Hr].
Defined.

(** After a [close] the sample server is no longer asked: the call that
    Redis would have answered with 4 is counted from 1 in memory. *)
Example closed_connection_counts_in_memory :
  (rateLimit "rl:a" 5 60 (mkEnv 400 LinkOk) (redis_on OnClose connected_world)).2
  = inr (mkResult 1 60).
Proof. reflexivity. Qed.

Lemma unauthorized_first_witness :
  preHandler Sample.SHARED_SECRET Sample.Number Sample.Number_toString
    Sample.hmac_sha256_hex 1700000000005
    (mkRequest RateLimitRoute (Some "Bearer guess") (Some "1700000000000")
       (Some "s3cret/1700000000000") (joi scenario_request))
  = Reply (mkResponse 401 (ErrorBody "Unauthorized")).
Proof.
  apply (unauthorized_first Sample.SHARED_SECRET Sample.Number Sample.Number_toString
           Sample.hmac_sha256_hex). vm_compute. discriminate.
Defined.

Lemma guard_pass_exactly_witness :
  preHandler Sample.SHARED_SECRET Sample.Number Sample.Number_toString
    Sample.hmac_sha256_hex 1700000000005 scenario_request = Pass.
Proof.
  apply (guard_pass_exactly Sample.SHARED_SECRET Sample.Number Sample.Number_toString
           Sample.hmac_sha256_hex 1700000000005 scenario_request ltac:(discriminate)).
  split_and!; vm_compute; reflexivity.
Defined.

Lemma replay_within_skew_witness :
  preHandler Sample.SHARED_SECRET Sample.Number Sample.Number_toString
    Sample.hmac_sha256_hex 1700000029000 scenario_request = Pass.
Proof.
  apply (replay_within_skew Sample.SHARED_SECRET Sample.Number Sample.Number_toString
           Sample.hmac_sha256_hex 1700000000005 1700000029000 scenario_request);
    vm_compute; reflexivity.
Defined.

Lemma health_guard_witness :
  preHandler Sample.SHARED_SECRET Sample.Number Sample.Number_toString
    Sample.hmac_sha256_hex 1700000000005 health_request = Pass.
Proof.
  apply (proj1 (health_guard Sample.SHARED_SECRET Sample.Number Sample.Number_toString
                  Sample.hmac_sha256_hex 1700000000005 health_request
                  ltac:(reflexivity))).
  reflexivity.
Defined.

Lemma script_reply_inversion_witness :
  ∃ s1 : SimRedis.t,
    redis_INCR "rl:a" ({[ "rl:a" := (3, Some 42) ]} : SimRedis.t) = (s1, inr 4) ∧
    redis_TTL "rl:a" s1
      = (<["rl:a" := (4, Some 42)]> ({[ "rl:a" := (3, Some 42) ]} : SimRedis.t),
         inr 42).
Proof.
  apply (@script_reply_inversion SimRedis.t SimRedis.server "rl:a" 5 60
           ({[ "rl:a" := (3, Some 42) ]} : SimRedis.t)
           (<["rl:a" := (4, Some 42)]> ({[ "rl:a" := (3, Some 42) ]} : SimRedis.t))
           4 42).
  vm_compute. reflexivity.
Defined.

Lemma ttl_within_window_witness :
  current (rateLimit_memory "rl:b" 99 2500
             (rateLimit_memory "rl:b" 10 2000 sample_world).1).2 = 2 ∧
  1 ≤ ttl (rateLimit_memory "rl:b" 99 2500
             (rateLimit_memory "rl:b" 10 2000 sample_world).1).2 ≤ 10.
Proof.
  apply (ttl_within_window "rl:b" 10 99 2000 2500 sample_world);
    [reflexivity | lia | lia | unfold safe_integer; lia | lia].
Defined.

Lemma retryStrategy_delays_witness :
  ∃ delay, retryStrategy 2 = Some delay ∧ 200 ≤ delay ≤ 600.
Proof.
  apply (proj2 (proj2 (retryStrategy_delays 2))). lia.
Defined.

Lemma answered_unless_no_body_witness :
  serve Sample.SHARED_SECRET Sample.Number Sample.Number_toString
    Sample.hmac_sha256_hex no_body_request
    (mkReqEnv 1700000000005 (mkEnv 1700000000005 LinkOk)) connected_world
  = (connected_world,
     inl (TypeError "Cannot destructure property 'key' of 'value' as it is undefined.")).
Proof.
  apply (proj1 (answered_unless_no_body Sample.SHARED_SECRET Sample.Number
                  Sample.Number_toString Sample.hmac_sha256_hex no_body_request
                  (mkReqEnv 1700000000005 (mkEnv 1700000000005 LinkOk))
                  connected_world)).
  split_and!; first [reflexivity | vm_compute; reflexivity].
Defined.

(** A command sent twice makes the sample server count twice for one
    call: the caller is told 5 where one run would have told 4. *)
Example resent_command_counts_twice :
  (rateLimit "rl:a" 5 60 (mkEnv 400 (LinkResent 2 true)) connected_world).2
  = inr (mkResult 5 42).
Proof. reflexivity. Qed.
